(** * Release monitor of [main.py]: scrape, parse, diff against the seen-set, notify

    A shallow embedding of the release-detection core of the bot
    ([fetch_releases_from_page], [monitor_new_releases], the rendering loop
    of [latestrelease], [testfetch]) together with the properties the
    specification states about it.

    Modelling conventions.
    - A Python [str] is a list of Unicode code points, so that [len] and
      slicing count what Python counts.
    - The page is taken after [BeautifulSoup(response.text, "html.parser")]:
      a tree of tags, text nodes and comments.  Module [Soup] models the
      four library entry points the source calls ([find_all], [find],
      [get_text(strip=True)] and the matching of a [class_] function).
    - Module-level globals ([cached_releases], [seen_releases]) and the two
      JSON files are fields of an explicit [world]; every function that
      touches them takes a world and returns the next one together with the
      list of effects it performed (file writes, messages sent, sleeps).
    - [requests.get] / [raise_for_status] may raise; this is an input of the
      model ([response]).  File writes and [send] are taken to return
      normally, and the release channel to exist (the monitor returns
      before its loop otherwise); logging, embed colours and timestamps
      are left out.
    - [lookup] and [randomseries] query pages for links: module [Markup]
      is the same tree with the [href] attribute.  [str.lower] is a
      parameter of what uses it, and the draws of [random.choice] and
      [random.sample] are inputs. *)

From Stdlib Require Import String Ascii NArith DecimalString.
From stdpp Require Import base list gmap sets.

Local Open Scope nat_scope.
#[local] Set Warnings "-clear-no-such-hyp".

(* ===================================================================== *)
(** ** Python values *)
(* ===================================================================== *)

Module Py.

(** [str]: a sequence of code points. *)
Definition str := list N.

(** An ASCII literal of the source, as code points. *)
Definition lit (s : string) : str := map N_of_ascii (list_ascii_of_string s).

(** Truthiness of a sequence: [if xs:]. *)
Definition truthy {A} (xs : list A) : bool :=
  match xs with [] => false | _ :: _ => true end.

(** [c.isspace()] for one code point (CPython's whitespace table). *)
Definition isspace (c : N) : bool :=
  ((9 <=? c) && (c <=? 13) || (28 <=? c) && (c <=? 32)
   || (c =? 133) || (c =? 160) || (c =? 5760)
   || (8192 <=? c) && (c <=? 8202)
   || (c =? 8232) || (c =? 8233) || (c =? 8239) || (c =? 8287)
   || (c =? 12288))%N.

Fixpoint lstrip (s : str) : str :=
  match s with
  | c :: s' => if isspace c then lstrip s' else s
  | [] => []
  end.

Definition rstrip (s : str) : str := reverse (lstrip (reverse s)).

(** [s.strip()] *)
Definition strip (s : str) : str := rstrip (lstrip s).

Fixpoint startswith (s prefix : str) : bool :=
  match prefix, s with
  | [], _ => true
  | p :: prefix', c :: s' => (p =? c)%N && startswith s' prefix'
  | _ :: _, [] => false
  end.

(** [needle in s] *)
Fixpoint contains (needle s : str) : bool :=
  match s with
  | [] => startswith [] needle
  | _ :: s' => startswith s needle || contains needle s'
  end.

(** [sep.join(parts)] *)
Fixpoint join (sep : str) (parts : list str) : str :=
  match parts with
  | [] => []
  | [p] => p
  | p :: rest => p ++ sep ++ join sep rest
  end.

(** [xs[i:j]] for [0 <= i]: out-of-range bounds are clamped. *)
Definition slice {A} (xs : list A) (i j : nat) : list A :=
  take (j - i) (drop i xs).

(** [range(start, stop, step)] for a positive [step]. *)
Fixpoint range_from (fuel start stop step : nat) : list nat :=
  match fuel with
  | 0 => []
  | S fuel' =>
      if start <? stop
      then start :: range_from fuel' (start + step) stop step
      else []
  end.

Definition range (start stop step : nat) : list nat :=
  range_from (stop - start) start stop step.

(** [str(n)] for a non-negative [int]. *)
Definition str_of_nat (n : nat) : str :=
  lit (NilEmpty.string_of_uint (Nat.to_uint n)).

(** Exceptions the modelled code can see. *)
Inductive exn :=
| IndexError
| RequestException.

(** A computation that returns or raises. *)
Inductive result (A : Type) :=
| Ok (a : A)
| Raise (e : exn).
Arguments Ok {A} a.
Arguments Raise {A} e.

#[global] Instance result_ret : MRet result := fun A a => Ok a.
#[global] Instance result_bind : MBind result := fun A B f m =>
  match m with
  | Ok a => f a
  | Raise e => Raise e
  end.

(** [xs[i]] for [0 <= i]: raises [IndexError] out of range. *)
Definition index {A} (xs : list A) (i : nat) : result A :=
  match xs !! i with
  | Some x => Ok x
  | None => Raise IndexError
  end.

End Py.

Import Py.

(* ===================================================================== *)
(** ** The parsed page (BeautifulSoup) *)
(* ===================================================================== *)

Module Soup.

(** A page element.  [class_] is the multi-valued [class] attribute
    ([None] when the tag has none); other attributes are never queried. *)
#[warnings="-register-all"] Inductive node :=
| NavigableString (s : str)
| Comment (s : str)
| Tag (name : str) (class_ : option (list str)) (contents : list node).

(** [tag.descendants]: every node below, in document order. *)
Fixpoint descendants (n : node) : list node :=
  match n with
  | Tag _ _ contents => flat_map (fun c => c :: descendants c) contents
  | _ => []
  end.

(** How a function given as [class_=] is matched against the attribute:
    on each class of the list, then on the classes joined by a space;
    on [None] when the attribute is absent. *)
Definition matches_class (f : option str -> bool) (v : option (list str)) : bool :=
  match v with
  | None => f None
  | Some classes =>
      existsb (fun c => f (Some c)) classes || f (Some (join (lit " ") classes))
  end.

Definition is_tag (name : str) (f : option str -> bool) (n : node) : bool :=
  match n with
  | Tag name' class_ _ => bool_decide (name' = name) && matches_class f class_
  | _ => false
  end.

(** [tag.find_all(name, class_=f)] *)
Definition find_all (name : str) (f : option str -> bool) (n : node) : list node :=
  List.filter (is_tag name f) (descendants n).

(** [tag.find(name)]: the first descendant tag of that name. *)
Definition find (name : str) (n : node) : option node :=
  head (find_all name (fun _ => true) n).

(** The strings [get_text(strip=True)] joins: each text descendant
    stripped, the empty ones skipped; comments are not text. *)
Definition stripped_strings (n : node) : list str :=
  flat_map (fun d =>
              match d with
              | NavigableString s =>
                  let s' := strip s in if truthy s' then [s'] else []
              | _ => []
              end) (descendants n).

(** [tag.get_text(strip=True)] *)
Definition get_text (n : node) : str := concat (stripped_strings n).

End Soup.

Import Soup.

(* ===================================================================== *)
(** ** Release records and the parsing phase *)
(* ===================================================================== *)

(** The dict built at [releases.append({...})]. *)
Record ReleaseRecord := Release {
  title : str;
  chapter : str;
  group : str;
  key : str
}.

#[global] Instance release_eq_dec : EqDecision ReleaseRecord.
Proof. solve_decision. Defined.

(** [lambda x: x and needle in str(x)] *)
Definition class_has (needle : str) (x : option str) : bool :=
  match x with
  | None => false
  | Some c => truthy c && contains needle c
  end.

(** [lambda x: x and ("col-6" in str(x) or "col-2" in str(x) or "col-4" in str(x))] *)
Definition is_column (x : option str) : bool :=
  match x with
  | None => false
  | Some c =>
      truthy c && (contains (lit "col-6") c || contains (lit "col-2") c
                   || contains (lit "col-4") c)
  end.

(** The dict literal of lines 143-148, from the three texts of a row. *)
Definition make_release (title release group : str) : ReleaseRecord :=
  {| title := title;
     chapter := release;
     group := if truthy group then group else lit "Unknown";
     key := title ++ lit "|" ++ release ++ lit "|" ++ group |}.

(** Body of the [try] of one loop iteration: [Ok (Some r)] appends [r],
    [Ok None] appends nothing. *)
Definition parse_release_div (release_div : node) : result (option ReleaseRecord) :=
  let columns := find_all (lit "div") is_column release_div in
  if 3 <=? length columns then
    c0 ← index columns 0;
    let title :=
      match find (lit "span") c0 with
      | Some title_elem => get_text title_elem
      | None => get_text c0
      end in
    c1 ← index columns 1;
    let release := get_text c1 in
    c2 ← index columns 2;
    let group := get_text c2 in
    if truthy title && truthy release
    then mret (Some (make_release title release group))
    else mret None
  else mret None.

(** [for release_div in release_divs: try: ... except Exception: continue] *)
Fixpoint parse_loop (release_divs : list node) (releases : list ReleaseRecord)
  : list ReleaseRecord :=
  match release_divs with
  | [] => releases
  | release_div :: rest =>
      match parse_release_div release_div with
      | Ok (Some r) => parse_loop rest (releases ++ [r])
      | Ok None => parse_loop rest releases
      | Raise _ => parse_loop rest releases
      end
  end.

(** [soup.find_all("div", class_=lambda x: x and "new-release-item" in str(x))] *)
Definition release_divs_of (soup : node) : list node :=
  find_all (lit "div") (class_has (lit "new-release-item")) soup.

(** The parsing phase of [fetch_releases_from_page]: lines 117-153. *)
Definition parse (soup : node) : list ReleaseRecord :=
  parse_loop (release_divs_of soup) [].

(* ===================================================================== *)
(** ** Process state, durable files and effects *)
(* ===================================================================== *)

(** The two module-level globals and the two JSON files.  A file is [None]
    while it does not exist.  The seen file holds [list(seen_releases)],
    whose order is unspecified: it is kept as the set it denotes. *)
Record world := World {
  cached_releases : list ReleaseRecord;
  seen_releases : gset (list N);
  CACHE_FILE : option (list ReleaseRecord);
  SEEN_FILE : option (gset (list N))
}.

Definition load_seen_releases (seen_file : option (gset (list N))) : gset (list N) :=
  match seen_file with
  | Some keys => keys
  | None => ∅
  end.

Definition load_cached_releases (cache_file : option (list ReleaseRecord))
  : list ReleaseRecord :=
  match cache_file with
  | Some releases => releases
  | None => []
  end.

(** Module import: lines 43-44. *)
Definition startup (cache_file : option (list ReleaseRecord))
  (seen_file : option (gset (list N))) : world :=
  {| cached_releases := load_cached_releases cache_file;
     seen_releases := load_seen_releases seen_file;
     CACHE_FILE := cache_file;
     SEEN_FILE := seen_file |}.

Record field := Field {
  name : str;
  value : str;
  inline : bool
}.

Record embed := Embed {
  embed_title : str;
  embed_url : option str;
  description : str;
  fields : list field;
  footer : str
}.

Inductive destination :=
| ReleaseChannel
| Ctx.

#[global] Instance destination_eq_dec : EqDecision destination.
Proof. solve_decision. Defined.

Inductive message :=
| Content (text : str)
| WithEmbed (e : embed).

Inductive effect :=
| WriteCacheFile (releases : list ReleaseRecord)
| WriteSeenFile (seen : gset (list N))
| Send (to : destination) (m : message)
| DeleteLoadingMsg
| Sleep (milliseconds : N).

(** [save_cached_releases(releases)] *)
Definition save_cached_releases (releases : list ReleaseRecord) (w : world)
  : world * list effect :=
  ({| cached_releases := cached_releases w;
      seen_releases := seen_releases w;
      CACHE_FILE := Some releases;
      SEEN_FILE := SEEN_FILE w |},
   [WriteCacheFile releases]).

(** [save_seen_releases()] *)
Definition save_seen_releases (w : world) : world * list effect :=
  ({| cached_releases := cached_releases w;
      seen_releases := seen_releases w;
      CACHE_FILE := CACHE_FILE w;
      SEEN_FILE := Some (seen_releases w) |},
   [WriteSeenFile (seen_releases w)]).

Definition set_cached_releases (releases : list ReleaseRecord) (w : world) : world :=
  {| cached_releases := releases;
     seen_releases := seen_releases w;
     CACHE_FILE := CACHE_FILE w;
     SEEN_FILE := SEEN_FILE w |}.

Definition set_seen_releases (seen : gset (list N)) (w : world) : world :=
  {| cached_releases := cached_releases w;
     seen_releases := seen;
     CACHE_FILE := CACHE_FILE w;
     SEEN_FILE := SEEN_FILE w |}.

(* ===================================================================== *)
(** ** [fetch_releases_from_page] *)
(* ===================================================================== *)

(** What lines 114-117 produce: [requests.get] or [raise_for_status]
    raises, or the body is parsed into a tree. *)
Inductive response :=
| Raises (e : exn)
| Page (soup : node).

(** [cached_releases if cached_releases else []] *)
Definition cached_or_empty (w : world) : list ReleaseRecord :=
  if truthy (cached_releases w) then cached_releases w else [].

Definition fetch_releases_from_page (resp : response) (w : world)
  : list ReleaseRecord * world * list effect :=
  match resp with
  | Page soup =>
      let releases := parse soup in
      if truthy releases then
        let w1 := set_cached_releases releases w in
        let '(w2, fx) := save_cached_releases releases w1 in
        (releases, w2, fx)
      else (cached_or_empty w, w, [])
  | Raises _ => (cached_or_empty w, w, [])
  end.

(* ===================================================================== *)
(** ** [monitor_new_releases]: one pass of the [while] body *)
(* ===================================================================== *)

(** Lines 191-194: the loop over [releases], threading the seen-set and
    the list of new releases. *)
Fixpoint detect (releases : list ReleaseRecord) (seen : gset (list N))
  (new_releases : list ReleaseRecord) : gset (list N) * list ReleaseRecord :=
  match releases with
  | [] => (seen, new_releases)
  | release :: rest =>
      if bool_decide (key release ∉ seen)
      then detect rest ({[key release]} ∪ seen) (new_releases ++ [release])
      else detect rest seen new_releases
  end.

(** [embed.add_field] of lines 211-215. *)
Definition monitor_field (release : ReleaseRecord) : field :=
  {| name := [128214; 32]%N ++ title release;
     value := lit "**Release:** " ++ chapter release ++ [10]%N
              ++ lit "**Group:** " ++ group release;
     inline := false |}.

(** One embed of the monitor: lines 203-217. *)
Definition monitor_embed (batch : list ReleaseRecord) : embed :=
  {| embed_title := [127381; 32]%N ++ lit "New Manga/Manhwa Releases";
     embed_url := None;
     description := lit "Fresh updates from MangaUpdates!";
     fields := map monitor_field batch;
     footer := lit "MangaUpdates Release Monitor" |}.

(** The batches of lines 201-210: [new_releases[i:i + chunk_size]] for
    [i in range(0, len(new_releases), chunk_size)]. *)
Definition batches (chunk_size : nat) (new_releases : list ReleaseRecord)
  : list (list ReleaseRecord) :=
  map (fun i => slice new_releases i (i + chunk_size))
      (range 0 (length new_releases) chunk_size).

(** Lines 200-219: one [send] and one [sleep(1)] per batch. *)
Definition post_new_releases (new_releases : list ReleaseRecord) : list effect :=
  let chunk_size := 5 in
  flat_map (fun batch =>
              [Send ReleaseChannel (WithEmbed (monitor_embed batch)); Sleep 1000])
           (batches chunk_size new_releases).

(** Lines 186-228. *)
Definition monitor_cycle (resp : response) (w : world) : world * list effect :=
  let '(releases, w1, fx_fetch) := fetch_releases_from_page resp w in
  let '(seen, new_releases) := detect releases (seen_releases w1) [] in
  let w2 := set_seen_releases seen w1 in
  if truthy new_releases then
    let '(w3, fx_save) := save_seen_releases w2 in
    (w3, fx_fetch ++ fx_save ++ post_new_releases new_releases ++ [Sleep 3600000])
  else (w2, fx_fetch ++ [Sleep 3600000]).

(* ===================================================================== *)
(** ** [latestrelease] and [testfetch] *)
(* ===================================================================== *)

(** Lines 263-265. *)
Definition title_display (title : str) : str :=
  if 80 <? length title then take 77 title ++ lit "..." else title.

(** [embed.add_field] of lines 267-271. *)
Definition latest_field (release : ReleaseRecord) : field :=
  {| name := [128214; 32]%N ++ title_display (title release);
     value := lit "**Release:** " ++ chapter release ++ [10]%N
              ++ lit "**Groups:** " ++ group release;
     inline := false |}.

(** One embed of the listing: lines 251-273. *)
Definition latest_embed (releases : list ReleaseRecord) (i chunk_size : nat) : embed :=
  let total_releases := length releases in
  let chunk := slice releases i (i + chunk_size) in
  {| embed_title := [128218; 32]%N ++ lit "MangaUpdates Releases";
     embed_url := Some (lit "https://www.mangaupdates.com/releases.html");
     description := lit "Showing " ++ str_of_nat (i + 1) ++ lit "-"
                    ++ str_of_nat ((i + chunk_size) `min` total_releases)
                    ++ lit " of " ++ str_of_nat total_releases
                    ++ lit " total releases";
     fields := map latest_field chunk;
     footer := lit "Live data from MangaUpdates" |}.

(** Lines 235-277. *)
Definition latestrelease (resp : response) (w : world) : world * list effect :=
  let loading := Send Ctx (Content ([128269; 32]%N
                   ++ lit "Fetching all releases from MangaUpdates...")) in
  let '(releases, w1, fx_fetch) := fetch_releases_from_page resp w in
  if truthy releases then
    let chunk_size := 10 in
    (w1, [loading] ++ fx_fetch ++ [DeleteLoadingMsg]
         ++ flat_map (fun i => [Send Ctx (WithEmbed (latest_embed releases i chunk_size));
                                Sleep 500])
                     (range 0 (length releases) chunk_size))
  else
    (w1, [loading] ++ fx_fetch ++ [DeleteLoadingMsg]
         ++ [Send Ctx (Content ([128226; 32]%N
               ++ lit "No release data available. Please try again in a moment!"))]).

(** Lines 481-490 (the caller is an administrator). *)
Definition testfetch (resp : response) (w : world) : world * list effect :=
  let testing := Send Ctx (Content ([129514; 32]%N ++ lit "Testing fetch function...")) in
  let '(releases, w1, fx_fetch) := fetch_releases_from_page resp w in
  match releases with
  | first :: _ =>
      (w1, [testing] ++ fx_fetch
           ++ [Send Ctx (Content ([9989; 32]%N ++ lit "Successfully fetched "
                 ++ str_of_nat (length releases) ++ lit " releases!" ++ [10]%N
                 ++ lit "**First release:** " ++ title first ++ lit " - "
                 ++ chapter first ++ lit " by " ++ group first))])
  | [] =>
      (w1, [testing] ++ fx_fetch
           ++ [Send Ctx (Content ([10060; 32]%N
                 ++ lit "Fetch returned no results. Check logs for details."))])
  end.

(* ===================================================================== *)
(** ** Histories of the running bot *)
(* ===================================================================== *)

(** What the event loop runs after start-up, each with the outcome of the
    HTTP request it makes. *)
Inductive event :=
| MonitorCycle (resp : response)
| LatestRelease (resp : response)
| TestFetch (resp : response).

Definition response_of (ev : event) : response :=
  match ev with
  | MonitorCycle resp | LatestRelease resp | TestFetch resp => resp
  end.

Definition step (ev : event) (w : world) : world * list effect :=
  match ev with
  | MonitorCycle resp => monitor_cycle resp w
  | LatestRelease resp => latestrelease resp w
  | TestFetch resp => testfetch resp w
  end.

Fixpoint run (evs : list event) (w : world) : world * list effect :=
  match evs with
  | [] => (w, [])
  | ev :: rest =>
      let '(w1, fx1) := step ev w in
      let '(w2, fx2) := run rest w1 in
      (w2, fx1 ++ fx2)
  end.

(* ===================================================================== *)
(** ** Observations used by the statements *)
(* ===================================================================== *)

(** The matching columns of a release row. *)
Definition columns_of (release_div : node) : list node :=
  find_all (lit "div") is_column release_div.

(** The trimmed texts of a row, read off its first three matching columns
    (the title from the first nested [span] when there is one). *)
Definition title_text (release_div : node) : str :=
  match columns_of release_div with
  | c0 :: _ =>
      match find (lit "span") c0 with
      | Some title_elem => get_text title_elem
      | None => get_text c0
      end
  | [] => []
  end.

Definition release_text (release_div : node) : str :=
  match columns_of release_div with
  | _ :: c1 :: _ => get_text c1
  | _ => []
  end.

Definition group_text (release_div : node) : str :=
  match columns_of release_div with
  | _ :: _ :: c2 :: _ => get_text c2
  | _ => []
  end.

(** A well-formed release row: at least three matching columns, a
    non-empty trimmed title and a non-empty trimmed release label. *)
Definition well_formed (release_div : node) : bool :=
  (3 <=? length (columns_of release_div))
  && truthy (title_text release_div) && truthy (release_text release_div).

Definition malformed (release_div : node) : bool := negb (well_formed release_div).

(** The record a well-formed row stands for. *)
Definition record_of (release_div : node) : ReleaseRecord :=
  make_release (title_text release_div) (release_text release_div)
               (group_text release_div).

(** [group if group else "Unknown"] *)
Definition or_unknown (group : str) : str :=
  if truthy group then group else lit "Unknown".

(** Two records that differ in exactly one of title, chapter, group. *)
Definition differ_in_one_field (r1 r2 : ReleaseRecord) : Prop :=
  (title r1 ≠ title r2 ∧ chapter r1 = chapter r2 ∧ group r1 = group r2)
  ∨ (title r1 = title r2 ∧ chapter r1 ≠ chapter r2 ∧ group r1 = group r2)
  ∨ (title r1 = title r2 ∧ chapter r1 = chapter r2 ∧ group r1 ≠ group r2).

(** What a response parses to; nothing when the request raised. *)
Definition parsed (resp : response) : list ReleaseRecord :=
  match resp with
  | Page soup => parse soup
  | Raises _ => []
  end.

(** The in-memory cache mirrors the cache file. *)
Definition cache_coherent (w : world) : Prop :=
  cached_releases w = load_cached_releases (CACHE_FILE w).

(** The listing a pass works on: the parsed page, or the cache. *)
Definition listing_of (resp : response) (w : world) : list ReleaseRecord :=
  if truthy (parsed resp) then parsed resp else cached_releases w.

(** The content of the cache file after a history, from its content at
    start-up: that of the last request that parsed to a record. *)
Fixpoint last_persisted (evs : list event) (cache_file : option (list ReleaseRecord))
  : option (list ReleaseRecord) :=
  match evs with
  | [] => cache_file
  | ev :: rest =>
      last_persisted rest
        (if truthy (parsed (response_of ev))
         then Some (parsed (response_of ev)) else cache_file)
  end.

(** The messages sent to a destination, in order. *)
Definition sent (to : destination) (fx : list effect) : list message :=
  flat_map (fun e =>
              match e with
              | Send to' m => if bool_decide (to' = to) then [m] else []
              | _ => []
              end) fx.

(** The embeds among messages. *)
Definition embeds (ms : list message) : list embed :=
  flat_map (fun m => match m with WithEmbed e => [e] | Content _ => [] end) ms.

(** The writes of the cache file, in order. *)
Definition cache_file_writes (fx : list effect) : list (list ReleaseRecord) :=
  flat_map (fun e => match e with WriteCacheFile rs => [rs] | _ => [] end) fx.

(** The writes of the seen file, in order. *)
Definition seen_file_writes (fx : list effect) : list (gset (list N)) :=
  flat_map (fun e => match e with WriteSeenFile s => [s] | _ => [] end) fx.

(** [ceil(a / b)] *)
Definition ceil_div (a b : nat) : nat := (a + (b - 1)) / b.

(** The new releases of a monitor pass: what [detect] appends. *)
Definition new_releases_of (resp : response) (w : world) : list ReleaseRecord :=
  let '(releases, w1, _) := fetch_releases_from_page resp w in
  (detect releases (seen_releases w1) []).2.

(* ===================================================================== *)
(** ** Sample pages *)
(* ===================================================================== *)

Module Sample.

Definition div (classes : list string) (contents : list node) : node :=
  Tag (lit "div") (Some (map lit classes)) contents.

Definition text (s : string) : node := NavigableString (lit s).

(** A release row as the listing page lays it out. *)
Definition row (title release group : string) : node :=
  div ["p-1"; "col-12"; "row"; "new-release-item"]%string
      [div ["col-6"; "py-1"]%string [Tag (lit "span") None [text title]];
       div ["col-2"; "py-1"]%string [text release];
       div ["col-4"; "py-1"]%string [text group]].

(** A row that lost its group column. *)
Definition short_row (title release : string) : node :=
  div ["p-1"; "col-12"; "row"; "new-release-item"]%string
      [div ["col-6"; "py-1"]%string [text title];
       div ["col-2"; "py-1"]%string [text release]].

Definition document (rows : list node) : node :=
  Tag (lit "[document]") None [div ["container"]%string rows].

(** One release whose group column is blank. *)
Definition page_blank_group : node :=
  document [row " Solo Leveling " "c.12" "  "].

(** The same release, its group spelled out as the default's text. *)
Definition page_unknown_group : node :=
  document [row "Solo Leveling" "c.12" "Unknown"].

(** Two well-formed rows that differ in the chapter only, one malformed. *)
Definition page_two_chapters : node :=
  document [row "Tower of God" "c.1" "LINE"; short_row "Noblesse" "c.3";
            row "Tower of God" "c.2" "LINE"].

(** A page with no usable row. *)
Definition page_empty : node :=
  document [short_row "Noblesse" "c.3"; row "Bastard" " " "Team"].

(** Chapters [first .. first + count - 1] of one series, one row each. *)
Definition chapter_rows (first count : nat) : list node :=
  map (fun n => row "Tower of God"
                  (String.append "c." (NilEmpty.string_of_uint (Nat.to_uint n)))
                  "LINE")
      (seq first count).

(** Twelve releases. *)
Definition page_twelve : node := document (chapter_rows 1 12).

(** Ten rows, the fourth without its group column. *)
Definition page_ten_one_short : node :=
  document (chapter_rows 1 3 ++ [short_row "Noblesse" "c.3"] ++ chapter_rows 4 6).

Definition solo : ReleaseRecord :=
  make_release (lit "Solo Leveling") (lit "c.12") [].

Definition tog (n : nat) : ReleaseRecord :=
  make_release (lit "Tower of God") (lit "c." ++ str_of_nat n) (lit "LINE").

(** A record whose title has 81 code points. *)
Definition long_title : ReleaseRecord :=
  make_release (replicate 81 65%N) (lit "c.1") (lit "LINE").

End Sample.
(* ===================================================================== *)
(** ** Further observations *)
(* ===================================================================== *)

(** The in-memory seen-set mirrors the seen file. *)
Definition seen_coherent (w : world) : Prop :=
  seen_releases w = load_seen_releases (SEEN_FILE w).

(** The keys of a list of records, as a set. *)
Definition keys_of (releases : list ReleaseRecord) : gset (list N) :=
  list_to_set (key <$> releases).

(** Every message sent is directly followed by a pause of [pause]
    milliseconds. *)
Fixpoint paced (pause : N) (fx : list effect) : bool :=
  match fx with
  | [] => true
  | Send _ _ :: rest =>
      match rest with
      | Sleep ms :: _ => (ms =? pause)%N && paced pause rest
      | _ => false
      end
  | _ :: rest => paced pause rest
  end.

(** A string with no white space at either end. *)
Definition trimmed (s : str) : bool :=
  match s with
  | [] => true
  | c :: _ =>
      negb (isspace c)
      && match last s with
         | Some d => negb (isspace d)
         | None => true
         end
  end.

(* ===================================================================== *)
(** ** Release rows as the specification describes them *)
(* ===================================================================== *)

(** These definitions follow the specification's description of a page
    and do not use the functions of the parsing phase: which elements are
    release rows, which are their columns, which text each column shows,
    and when a row is well formed.  The parsing phase is compared with
    them. *)

(** [needle] occurs in [s]: at some position of [s] the next
    [length needle] code points are [needle]. *)
Definition occurs_in (needle s : str) : bool :=
  existsb (fun i => bool_decide (take (length needle) (drop i s) = needle))
          (seq 0 (S (length s))).

(** The name of an element ([None] for text and comments). *)
Definition tag_name (n : node) : option str :=
  match n with
  | Tag name _ _ => Some name
  | _ => None
  end.

(** The class attribute as written: its classes separated by a space
    ([None] for text, comments, and an element without the attribute). *)
Definition class_attribute (n : node) : option str :=
  match n with
  | Tag _ (Some classes) _ => Some (join (lit " ") classes)
  | _ => None
  end.

(** A release row: a [div] whose class attribute contains the marker
    "new-release-item". *)
Definition spec_is_release_row (n : node) : bool :=
  bool_decide (tag_name n = Some (lit "div"))
  && match class_attribute n with
     | Some attribute => occurs_in (lit "new-release-item") attribute
     | None => false
     end.

(** A column: a [div] whose class attribute contains "col-6" (title),
    "col-2" (release label) or "col-4" (group). *)
Definition spec_is_column (n : node) : bool :=
  bool_decide (tag_name n = Some (lit "div"))
  && match class_attribute n with
     | Some attribute =>
         occurs_in (lit "col-6") attribute || occurs_in (lit "col-2") attribute
         || occurs_in (lit "col-4") attribute
     | None => false
     end.

(** The release rows of a page, in document order. *)
Definition spec_rows (soup : node) : list node :=
  List.filter spec_is_release_row (descendants soup).

(** The columns of a row, in document order. *)
Definition spec_columns (row : node) : list node :=
  List.filter spec_is_column (descendants row).

(** The nested label of a column: its first [span], if it has one. *)
Definition spec_label (column : node) : option node :=
  head (List.filter (fun n => bool_decide (tag_name n = Some (lit "span")))
                    (descendants column)).

(** The trimmed title of a row: the text of the first column's nested
    label when there is one, of the first column otherwise. *)
Definition spec_title (row : node) : str :=
  match spec_columns row with
  | column :: _ =>
      match spec_label column with
      | Some label => get_text label
      | None => get_text column
      end
  | [] => []
  end.

(** The trimmed release label of a row: the text of its second column. *)
Definition spec_release (row : node) : str :=
  match spec_columns row with
  | _ :: column :: _ => get_text column
  | _ => []
  end.

(** The trimmed group text of a row: the text of its third column. *)
Definition spec_group (row : node) : str :=
  match spec_columns row with
  | _ :: _ :: column :: _ => get_text column
  | _ => []
  end.

(** A well-formed row: at least three columns, a non-empty trimmed title
    and a non-empty trimmed release label. *)
Definition spec_well_formed (row : node) : bool :=
  (3 <=? length (spec_columns row))
  && negb (bool_decide (spec_title row = []))
  && negb (bool_decide (spec_release row = [])).

Definition spec_malformed (row : node) : bool := negb (spec_well_formed row).

(* ===================================================================== *)
(** ** Pages queried for links: [lookup] and [randomseries] *)
(* ===================================================================== *)

Module Markup.

(** A page element with the two attributes these commands query: the
    multi-valued [class] and the single-valued [href] ([None] when the
    tag has none). *)
#[warnings="-register-all"] Inductive element :=
| Text (s : str)
| Remark (s : str)
| Element (name : str) (class_ : option (list str)) (href : option str)
    (contents : list element).

(** [tag.descendants] *)
Fixpoint descendants (n : element) : list element :=
  match n with
  | Element _ _ _ contents => flat_map (fun c => c :: descendants c) contents
  | _ => []
  end.

(** [tag.find_all(name, class_=f, href=g)]; a filter left out is [None].
    A function given for [href] is applied to the value, or to [None]. *)
Definition is_tag (name : str) (class_f href_f : option (option str → bool))
  (n : element) : bool :=
  match n with
  | Element name' class_ href _ =>
      bool_decide (name' = name)
      && match class_f with
         | Some f => matches_class f class_
         | None => true
         end
      && match href_f with
         | Some g => g href
         | None => true
         end
  | _ => false
  end.

Definition find_all (name : str) (class_f href_f : option (option str → bool))
  (n : element) : list element :=
  List.filter (is_tag name class_f href_f) (descendants n).

(** [tag.find(name, class_=f)] *)
Definition find (name : str) (class_f : option (option str → bool))
  (n : element) : option element :=
  head (find_all name class_f None n).

(** [tag.get_text(strip=True)] *)
Definition get_text (n : element) : str :=
  concat (flat_map (fun d =>
                      match d with
                      | Text s => let s' := strip s in if truthy s' then [s'] else []
                      | _ => []
                      end) (descendants n)).

(** [tag.get('href', '')] *)
Definition get_href (n : element) : str :=
  match n with
  | Element _ _ (Some h) _ => h
  | _ => []
  end.

(** What a request gives: it raises, or its body is parsed into a tree. *)
Inductive reply :=
| Failed (e : exn)
| Body (soup : element).

End Markup.

(** [s.replace(old, new)] for one-character [old] and [new]. *)
Definition replace_char (old new : N) (s : str) : str :=
  map (fun c => if (c =? old)%N then new else c) s.

Definition site : str := lit "https://www.mangaupdates.com".

Section Lookup.

(** [str.lower], taken as given. *)
Variable lower : str → str.

(** [lambda x: x and any(word in str(x).lower() for word in [...])] *)
Definition is_result_class (x : option str) : bool :=
  match x with
  | None => false
  | Some c =>
      truthy c
      && existsb (fun word => contains word (lower c))
                 [lit "series"; lit "result"; lit "item"]
  end.

(** The dict of lines 314-318. *)
Record search_result := SearchResult {
  result_title : str;
  link : str;
  info : str
}.

(** Lines 306-318: the loop over the first ten items. *)
Fixpoint lookup_loop (items : list Markup.element) (results : list search_result)
  : list search_result :=
  match items with
  | [] => results
  | item :: rest =>
      let title_elem :=
        match Markup.find (lit "a") None item with
        | Some a => Some a
        | None => Markup.find (lit "span") None item
        end in
      match title_elem with
      | Some title_elem =>
          let title := Markup.get_text title_elem in
          let link :=
            match Markup.find (lit "a") None item with
            | Some _ => Markup.get_href title_elem
            | None => []
            end in
          let info_text := Markup.get_text item in
          if truthy title && (2 <? length title) then
            lookup_loop rest
              (results ++
               [{| result_title := title;
                   link := if truthy link && negb (startswith link (lit "http"))
                           then site ++ link else link;
                   info := if length title <? length info_text
                           then take 200 info_text else [] |}])
          else lookup_loop rest results
      | None => lookup_loop rest results
      end
  end.

(** Lines 301-318. *)
Definition lookup_results (soup : Markup.element) : list search_result :=
  let series_items :=
    Markup.find_all (lit "div") (Some is_result_class) None soup in
  lookup_loop (take 10 series_items) [].

(** Line 291. *)
Definition search_url (query : str) : str :=
  site ++ lit "/series.html?search=" ++ replace_char 32 43 query.

(** [embed.add_field] of lines 331-336. *)
Definition result_field (result : search_result) : field :=
  let title_display := take 100 (result_title result) in
  {| name := [128218; 32]%N ++ title_display;
     value := if truthy (link result) then link result
              else lit "No link available";
     inline := false |}.

(** [lookup], lines 284-358.  An embed built without [set_footer] has the empty
    footer. *)
Definition lookup_command (query : str) (resp : Markup.reply) : list effect :=
  let loading :=
    Send Ctx (Content ([128269; 32]%N ++ lit "Searching for '" ++ query
                       ++ lit "' on MangaUpdates...")) in
  match resp with
  | Markup.Body soup =>
      let results := lookup_results soup in
      if truthy results then
        [loading; DeleteLoadingMsg;
         Send Ctx (WithEmbed
           {| embed_title := [128270; 32]%N ++ lit "Search Results for '"
                             ++ query ++ lit "'";
              embed_url := Some (search_url query);
              description := lit "Found " ++ str_of_nat (length results)
                             ++ lit " results";
              fields := map result_field (take 8 results);
              footer := lit "Click the title link above to see all results" |})]
      else
        [loading; DeleteLoadingMsg;
         Send Ctx (WithEmbed
           {| embed_title := [128270; 32]%N ++ lit "Search Results for '"
                             ++ query ++ lit "'";
              embed_url := Some (search_url query);
              description := lit "No results found. Click the link above to search directly on MangaUpdates.";
              fields := [];
              footer := [] |})]
  | Markup.Failed _ =>
      [loading; DeleteLoadingMsg;
       Send Ctx (WithEmbed
         {| embed_title := [128270; 32]%N ++ lit "Search for '" ++ query ++ lit "'";
            embed_url := Some (search_url query);
            description := lit "Click the link above to view results directly on MangaUpdates.";
            fields := [];
            footer := [] |})]
  end.

(** [lambda x: x and "/series.html?id=" in str(x)] *)
Definition is_series_href (x : option str) : bool :=
  match x with
  | None => false
  | Some h => truthy h && contains (lit "/series.html?id=") h
  end.

(** [lambda x: x and "description" in str(x).lower()] *)
Definition is_description_class (x : option str) : bool :=
  match x with
  | None => false
  | Some c => truthy c && contains (lit "description") (lower c)
  end.

(** The dict of lines 395-398. *)
Record series := Series {
  series_title : str;
  series_url : str
}.

(** Lines 388-398 and 408-414: the loop over the links of one page. *)
Fixpoint series_loop (series_links : list Markup.element) (manhwa_list : list series)
  : list series :=
  match series_links with
  | [] => manhwa_list
  | link :: rest =>
      let title := Markup.get_text link in
      let series_url := Markup.get_href link in
      if truthy title && (2 <? length title) then
        let full_url := if negb (startswith series_url (lit "http"))
                        then site ++ series_url else series_url in
        series_loop rest
          (manhwa_list ++ [{| series_title := title; series_url := full_url |}])
      else series_loop rest manhwa_list
  end.

Definition series_of_page (soup : Markup.element) (manhwa_list : list series)
  : list series :=
  series_loop (Markup.find_all (lit "a") None (Some is_series_href) soup)
              manhwa_list.

(** Lines 400-416: [while len(manhwa_list) == 0 and attempts < 3].  The
    request of attempt [n] gives [pages n]; it raises out of the loop.
    Returns the list with the number of attempts made. *)
Fixpoint retry_loop (fuel attempts : nat) (pages : nat → Markup.reply)
  (manhwa_list : list series) : result (list series * nat) :=
  match fuel with
  | 0 => Ok (manhwa_list, attempts)
  | S fuel' =>
      if (length manhwa_list =? 0) && (attempts <? 3) then
        match pages attempts with
        | Markup.Failed e => Raise e
        | Markup.Body soup =>
            retry_loop fuel' (attempts + 1) pages (series_of_page soup manhwa_list)
        end
      else Ok (manhwa_list, attempts)
  end.

(** Lines 381-416: the first page, then the retries. *)
Definition collect_series (first : Markup.reply) (pages : nat → Markup.reply)
  : result (list series * nat) :=
  match first with
  | Markup.Failed e => Raise e
  | Markup.Body soup => retry_loop 3 0 pages (series_of_page soup [])
  end.

(** [random.choice(xs)] for the non-empty [xs = x0 :: rest]: the drawn
    number reduced to an index. *)
Definition random_choice {A} (draw : nat) (x0 : A) (rest : list A) : A :=
  nth (draw mod S (length rest)) (x0 :: rest) x0.

(** [random.sample(xs, k)]: [k] elements at pairwise distinct positions,
    each drawn among the positions left. *)
Fixpoint random_sample {A} (k : nat) (draws : nat → nat) (xs : list A) : list A :=
  match k with
  | 0 => []
  | S k' =>
      let i := draws k' mod length xs in
      match xs !! i with
      | Some x => x :: random_sample k' draws (delete i xs)
      | None => []
      end
  end.

Definition default_description : str :=
  lit "Click the title to read more on MangaUpdates!".

(** Lines 423-434: the description from the detail page; any failure
    gives the default. *)
Definition describe (detail : Markup.reply) : str :=
  match detail with
  | Markup.Failed _ => default_description
  | Markup.Body detail_soup =>
      match Markup.find (lit "div") (Some is_description_class) detail_soup with
      | Some desc_elem =>
          let desc_text := Markup.get_text desc_elem in
          if 300 <? length desc_text then take 300 desc_text ++ lit "..."
          else desc_text
      | None => default_description
      end
  end.

(** One line of the field of lines 445: ["• [title](url)"]. *)
Definition bullet (m : series) : str :=
  [8226; 32]%N ++ lit "[" ++ series_title m ++ lit "](" ++ series_url m ++ lit ")".

Definition browse_embed : embed :=
  {| embed_title := [127922; 32]%N ++ lit "Random Manhwa";
     embed_url := Some (site ++ lit "/series.html?type=manhwa");
     description := lit "Click the link above to browse all Manhwa on MangaUpdates!";
     fields := [];
     footer := [] |}.

(** Lines 365-473. *)
Definition randomseries (first : Markup.reply) (pages : nat → Markup.reply)
  (detail : Markup.reply) (draw : nat) (draws : nat → nat) : list effect :=
  let loading :=
    Send Ctx (Content ([127922; 32]%N ++ lit "Finding a random Manhwa for you...")) in
  match collect_series first pages with
  | Ok (manhwa_list, _) =>
      match manhwa_list with
      | first_series :: more =>
          let random_manhwa := random_choice draw first_series more in
          [loading; DeleteLoadingMsg;
           Send Ctx (WithEmbed
             {| embed_title := [127922; 32]%N ++ lit "Random Manhwa: "
                               ++ series_title random_manhwa;
                embed_url := Some (series_url random_manhwa);
                description := describe detail;
                fields :=
                  if 1 <? length manhwa_list then
                    [{| name := [127919; 32]%N ++ lit "More Random Manhwa:";
                        value := join [10]%N
                                   (map bullet
                                      (random_sample (5 `min` length manhwa_list)
                                              draws manhwa_list));
                        inline := false |}]
                  else [];
                footer := [127472; 127479; 32]%N
                          ++ lit "Random Manhwa from MangaUpdates" |})]
      | [] => [loading; DeleteLoadingMsg; Send Ctx (WithEmbed browse_embed)]
      end
  | Raise _ => [loading; DeleteLoadingMsg; Send Ctx (WithEmbed browse_embed)]
  end.

End Lookup.

(** A result the search keeps: a title of more than two code points and a
    link that is empty or absolute. *)
Definition kept_result (r : search_result) : Prop :=
  2 < length (result_title r)
  ∧ (link r = [] ∨ startswith (link r) (lit "http") = true).

(** A series the browse keeps: a title of more than two code points and
    an absolute address. *)
Definition kept_series (m : series) : Prop :=
  2 < length (series_title m) ∧ startswith (series_url m) (lit "http") = true.

(** Lower-casing of the ASCII letters, to run the samples. *)
Definition ascii_lower (s : str) : str :=
  map (fun c => if (65 <=? c)%N && (c <=? 90)%N then (c + 32)%N else c) s.

Module LinkSample.

Definition anchor (href text : string) : Markup.element :=
  Markup.Element (lit "a") None (Some (lit href)) [Markup.Text (lit text)].

Definition item (classes : list string) (contents : list Markup.element)
  : Markup.element :=
  Markup.Element (lit "div") (Some (map lit classes)) None contents.

Definition document (contents : list Markup.element) : Markup.element :=
  Markup.Element (lit "[document]") None None contents.

(** A search page: one relative link, one absolute, one item with a
    two-letter title. *)
Definition search_page : Markup.element :=
  document [item ["Series-Item"]%string [anchor "/series/abc/tower" "Tower of God"];
            item ["result"]%string [anchor "https://example.org/x" " Noblesse "];
            item ["item"]%string [anchor "/series/zz" "Go"]].

(** A browse page with [count] series. *)
Definition browse_page (count : nat) : Markup.element :=
  document (map (fun n => anchor "/series.html?id=7" "Bastard") (seq 0 count)).

Definition empty_page : Markup.element := document [].

End LinkSample.
(* ===================================================================== *)
(** ** The parsing phase *)
(* ===================================================================== *)

Section Parsing.

Implicit Types (release_div : node) (releases : list ReleaseRecord).

(** One iteration never raises: the indexes are guarded by the length
    test, and the row yields its record exactly when it is well formed. *)
Lemma parse_release_div_ok release_div :
  parse_release_div release_div
  = Ok (if well_formed release_div then Some (record_of release_div) else None).
Proof.
  unfold parse_release_div, well_formed, record_of,
    title_text, release_text, group_text, columns_of.
  destruct (find_all (lit "div") is_column release_div)
    as [|c0 [|c1 [|c2 more]]]; try reflexivity.
  cbn [length Nat.leb index lookup list_lookup mbind result_bind andb].
  destruct (truthy _ && truthy _); reflexivity.
Qed.

Lemma parse_loop_eq release_divs releases :
  parse_loop release_divs releases
  = releases ++ map record_of (List.filter well_formed release_divs).
Proof.
  revert releases.
  induction release_divs as [|d rest IH]; intros releases; cbn [parse_loop].
  - cbn. by rewrite app_nil_r.
  - rewrite parse_release_div_ok. cbn [List.filter].
    destruct (well_formed d); rewrite IH; [|done].
    cbn [map]. by rewrite <- app_assoc.
Qed.

Lemma parse_eq soup :
  parse soup = map record_of (List.filter well_formed (release_divs_of soup)).
Proof. unfold parse. by rewrite parse_loop_eq. Qed.

Lemma elem_of_parse soup r :
  r ∈ parse soup ↔
  ∃ d, d ∈ release_divs_of soup ∧ well_formed d = true ∧ r = record_of d.
Proof.
  rewrite parse_eq, list_elem_of_In, in_map_iff. split.
  - intros (d & <- & Hd). apply filter_In in Hd as [Hd Hwf].
    exists d. by rewrite list_elem_of_In.
  - intros (d & Hd & Hwf & ->). exists d. split; [done|].
    apply filter_In. by rewrite <- list_elem_of_In.
Qed.

Lemma truthy_nonempty {A} (xs : list A) : truthy xs = true ↔ xs ≠ [].
Proof. destruct xs; cbn; split; (done || congruence). Qed.

Lemma well_formed_texts release_div :
  well_formed release_div = true →
  3 ≤ length (columns_of release_div)
  ∧ title_text release_div ≠ [] ∧ release_text release_div ≠ [].
Proof.
  unfold well_formed. rewrite !andb_true_iff, !truthy_nonempty.
  intros [[Hlen%Nat.leb_le ?] ?]. done.
Qed.

End Parsing.

(* ===================================================================== *)
(** ** The parsing phase against the specification's rows *)
(* ===================================================================== *)

Section SpecRows.

Implicit Types (needle s c : str) (n : node).

Lemma startswith_iff s prefix :
  startswith s prefix = true ↔ ∃ post, s = prefix ++ post.
Proof.
  revert s. induction prefix as [|p prefix IH]; intros s.
  - split; [intros _; by exists s|by destruct s].
  - destruct s as [|a s]; cbn [startswith].
    + split; [done|]. by intros [post Hpost].
    + rewrite andb_true_iff, N.eqb_eq, IH. split.
      * intros [-> [post ->]]. by exists post.
      * intros [post [= -> ->]]. eauto.
Qed.

Lemma contains_iff needle s :
  contains needle s = true ↔ ∃ pre post, s = pre ++ needle ++ post.
Proof.
  induction s as [|a s IH]; cbn [contains].
  - rewrite startswith_iff. split.
    + intros [post Hpost]. by exists [], post.
    + intros (pre & post & Hs). symmetry in Hs.
      apply app_eq_nil in Hs as [-> Hs]. by exists post.
  - rewrite orb_true_iff, startswith_iff, IH. split.
    + intros [[post Hpost]|(pre & post & ->)].
      * by exists [], post.
      * by exists (a :: pre), post.
    + intros (pre & post & Hs). destruct pre as [|b pre].
      * left. by exists post.
      * right. injection Hs as -> ->. eauto.
Qed.

Lemma occurs_in_iff needle s :
  occurs_in needle s = true ↔ ∃ pre post, s = pre ++ needle ++ post.
Proof.
  unfold occurs_in. rewrite existsb_exists. split.
  - intros (i & _ & Hi%bool_decide_eq_true).
    exists (take i s), (drop (length needle) (drop i s)).
    transitivity (take i s ++ drop i s); [by rewrite take_drop|]. f_equal.
    transitivity (take (length needle) (drop i s)
                  ++ drop (length needle) (drop i s)); [by rewrite take_drop|].
    by rewrite Hi.
  - intros (pre & post & ->). exists (length pre). split.
    + apply in_seq. rewrite !length_app. lia.
    + apply bool_decide_eq_true. rewrite drop_app_length.
      by rewrite take_app_length.
Qed.

Lemma contains_occurs_in needle s : contains needle s = occurs_in needle s.
Proof.
  apply Bool.eq_iff_eq_true. by rewrite contains_iff, occurs_in_iff.
Qed.

Lemma join_part (sep : str) (parts : list str) c :
  c ∈ parts → ∃ pre post, join sep parts = pre ++ c ++ post.
Proof.
  induction parts as [|p rest IH]; [by intros ?%elem_of_nil|].
  intros [->|Hin]%elem_of_cons.
  - exists []. destruct rest as [|q rest]; cbn [join app].
    + exists []. by rewrite app_nil_r.
    + by eexists.
  - destruct (IH Hin) as (pre & post & Hjoin).
    destruct rest as [|q rest]; [by apply elem_of_nil in Hin|].
    exists (p ++ sep ++ pre), post.
    change (join sep (p :: q :: rest)) with (p ++ sep ++ join sep (q :: rest)).
    rewrite Hjoin. by rewrite <- !app_assoc.
Qed.

(** How a function [lambda x: x and g(str(x))] matches the classes of a
    tag, when [g] looks for sub-strings: it matches exactly when the
    class attribute as written satisfies [g]. *)
Lemma matches_class_written (f : option str → bool) (g : str → bool)
  (classes : list str) :
  (∀ x, f x = match x with None => false | Some c => truthy c && g c end) →
  (∀ c pre post, g c = true → g (pre ++ c ++ post) = true) →
  g [] = false →
  matches_class f (Some classes) = g (join (lit " ") classes).
Proof.
  intros Hf Hup Hnil. apply Bool.eq_iff_eq_true. unfold matches_class.
  rewrite orb_true_iff, existsb_exists. split.
  - intros [(c & Hin & Hc)|HJ].
    + rewrite Hf in Hc. apply andb_true_iff in Hc as [_ Hc].
      apply list_elem_of_In, (join_part (lit " ")) in Hin as (pre & post & ->).
      by apply Hup.
    + rewrite Hf in HJ. by apply andb_true_iff in HJ as [_ HJ].
  - intros HJ. right. rewrite Hf, HJ.
    destruct (join (lit " ") classes); [congruence|done].
Qed.

Lemma occurs_in_up needle c pre post :
  occurs_in needle c = true → occurs_in needle (pre ++ c ++ post) = true.
Proof.
  rewrite !occurs_in_iff. intros (pre' & post' & ->).
  exists (pre ++ pre'), (post' ++ post). by rewrite <- !app_assoc.
Qed.

Lemma is_release_row_eq n :
  is_tag (lit "div") (class_has (lit "new-release-item")) n
  = spec_is_release_row n.
Proof.
  destruct n as [raw|raw|name [classes|] contents]; try done.
  - unfold is_tag, spec_is_release_row. cbn [tag_name class_attribute].
    f_equal.
    + apply bool_decide_ext. split; [by intros ->|by intros [= ->]].
    + apply matches_class_written.
      * intros [c|]; [|done]. cbn [class_has]. by rewrite contains_occurs_in.
      * intros c pre post. apply occurs_in_up.
      * reflexivity.
  - unfold is_tag, spec_is_release_row. cbn [tag_name class_attribute matches_class class_has].
    by rewrite !andb_false_r.
Qed.

Lemma is_column_eq n : is_tag (lit "div") is_column n = spec_is_column n.
Proof.
  destruct n as [raw|raw|name [classes|] contents]; try done.
  - unfold is_tag, spec_is_column. cbn [tag_name class_attribute].
    f_equal.
    + apply bool_decide_ext. split; [by intros ->|by intros [= ->]].
    + apply (matches_class_written is_column
               (fun c => occurs_in (lit "col-6") c || occurs_in (lit "col-2") c
                         || occurs_in (lit "col-4") c)).
      * intros [c|]; [|done]. cbn [is_column]. by rewrite !contains_occurs_in.
      * intros c pre post. rewrite !orb_true_iff.
        intros [[H|H]|H]; eauto using occurs_in_up.
      * reflexivity.
  - unfold is_tag, spec_is_column. cbn [tag_name class_attribute matches_class is_column].
    by rewrite !andb_false_r.
Qed.

Lemma is_span_eq n :
  is_tag (lit "span") (fun _ => true) n
  = bool_decide (tag_name n = Some (lit "span")).
Proof.
  destruct n as [raw|raw|name [classes|] contents]; try done;
    unfold is_tag; cbn [tag_name matches_class];
    rewrite ?orb_true_r, andb_true_r;
    apply bool_decide_ext; (split; [by intros ->|by intros [= ->]]).
Qed.

Lemma release_divs_of_eq soup : release_divs_of soup = spec_rows soup.
Proof. apply filter_ext, is_release_row_eq. Qed.

Lemma columns_of_eq row : columns_of row = spec_columns row.
Proof. apply filter_ext, is_column_eq. Qed.

Lemma find_span_eq column : find (lit "span") column = spec_label column.
Proof. unfold find, find_all, spec_label. f_equal. apply filter_ext, is_span_eq. Qed.

Lemma row_texts_eq row :
  title_text row = spec_title row
  ∧ release_text row = spec_release row
  ∧ group_text row = spec_group row.
Proof.
  unfold title_text, release_text, group_text, spec_title, spec_release, spec_group.
  rewrite columns_of_eq. repeat split.
  destruct (spec_columns row) as [|c0 cols]; [done|]. by rewrite find_span_eq.
Qed.

Lemma well_formed_eq row : well_formed row = spec_well_formed row.
Proof.
  unfold well_formed, spec_well_formed.
  destruct (row_texts_eq row) as (-> & -> & _). rewrite columns_of_eq.
  by destruct (spec_title row), (spec_release row).
Qed.

End SpecRows.

(** C1. On every page with N well-formed release rows and M malformed
    ones, rows, columns and texts being those the specification describes
    (a row is a [div] whose class attribute contains "new-release-item";
    its columns are the [div]s below it whose class attribute contains
    "col-6", "col-2" or "col-4"; it is well formed with at least three
    columns, a non-empty trimmed title and a non-empty trimmed release
    label), the parsing phase returns exactly N records, one per
    well-formed row and in row order; each record carries the row's
    trimmed title and release label, both non-empty, and its group is
    "Unknown" whenever the row's trimmed group text is empty (the group
    text itself otherwise); the malformed rows are dropped and no
    iteration of the loop raises. *)
Theorem parse_counts_well_formed_rows (soup : node) (N M : nat) :
  length (List.filter spec_well_formed (spec_rows soup)) = N →
  length (List.filter spec_malformed (spec_rows soup)) = M →
  length (spec_rows soup) = N + M
  ∧ length (parse soup) = N
  ∧ Forall2 (fun row r =>
       title r = spec_title row ∧ chapter r = spec_release row
       ∧ title r ≠ [] ∧ chapter r ≠ []
       ∧ (spec_group row = [] → group r = lit "Unknown")
       ∧ (spec_group row ≠ [] → group r = spec_group row))
     (List.filter spec_well_formed (spec_rows soup)) (parse soup)
  ∧ Forall (fun row => ∃ o, parse_release_div row = Ok o) (spec_rows soup).
Proof.
  intros HN HM.
  assert (Hcount : length (spec_rows soup) = N + M).
  { subst N M. unfold spec_malformed.
    induction (spec_rows soup) as [|row rest IH]; [done|].
    cbn [List.filter length].
    destruct (spec_well_formed row); cbn [negb length]; lia. }
  assert (Hparse : parse soup
                   = map record_of (List.filter spec_well_formed (spec_rows soup))).
  { rewrite parse_eq, release_divs_of_eq. f_equal.
    apply filter_ext, well_formed_eq. }
  split; [|split; [|split]].
  - exact Hcount.
  - by rewrite Hparse, length_map.
  - rewrite Hparse. clear HN HM Hcount Hparse.
    assert (Hwf : Forall (fun row => spec_well_formed row = true)
                    (List.filter spec_well_formed (spec_rows soup))).
    { apply Forall_forall. intros row Hrow%list_elem_of_In.
      by apply filter_In in Hrow as [_ ?]. }
    induction Hwf as [|row rows Hrow _ IH]; cbn [map]; [constructor|].
    constructor; [|exact IH].
    rewrite <- well_formed_eq in Hrow.
    apply well_formed_texts in Hrow as (_ & Ht & Hr).
    destruct (row_texts_eq row) as (Etitle & Erelease & Egroup).
    rewrite <- Etitle, <- Erelease, <- Egroup.
    unfold record_of, make_release; cbn. repeat split; try done.
    + by intros ->.
    + intros Hg. by destruct (group_text row).
  - apply Forall_forall. intros row _. rewrite parse_release_div_ok. eauto.
Qed.

(** C1 at a page of ten rows, the fourth without its group column: nine
    well-formed rows, one malformed, nine records. *)
Lemma parse_counts_well_formed_rows_witness :
  length (spec_rows Sample.page_ten_one_short) = 9 + 1
  ∧ length (parse Sample.page_ten_one_short) = 9.
Proof.
  destruct (parse_counts_well_formed_rows Sample.page_ten_one_short 9 1)
    as (Hrows & Hparse & _).
  - vm_compute. reflexivity.
  - vm_compute. reflexivity.
  - split; [exact Hrows|exact Hparse].
Defined.
(* ===================================================================== *)
(** ** The identity key *)
(* ===================================================================== *)

Section Key.

Implicit Types (t c g : str).

Lemma make_release_key t c g :
  key (make_release t c g) = t ++ lit "|" ++ c ++ lit "|" ++ g.
Proof. reflexivity. Qed.

Lemma make_release_group t c g : group (make_release t c g) = or_unknown g.
Proof. reflexivity. Qed.

Lemma or_unknown_nonempty g : g ≠ [] → or_unknown g = g.
Proof. by destruct g. Qed.

(** Two source group texts with the same defaulted group are equal, or
    one is blank and the other spells "Unknown". *)
Lemma or_unknown_eq g1 g2 :
  or_unknown g1 = or_unknown g2 →
  g1 = g2 ∨ (g1 = [] ∧ g2 = lit "Unknown") ∨ (g1 = lit "Unknown" ∧ g2 = []).
Proof.
  destruct g1 as [|a g1], g2 as [|b g2]; cbn; intros H; auto.
Qed.

(** A key that ends with the delimiter is not a key that ends with the
    text "Unknown". *)
Lemma blank_key_ne_unknown_key (x y : str) :
  x ++ lit "|" ≠ y ++ lit "|" ++ lit "Unknown".
Proof.
  intros H. apply (f_equal last) in H.
  change (lit "|") with [124%N] in H.
  change ([124%N] ++ lit "Unknown") with (lit "|Unknow" ++ [110%N]) in H.
  rewrite app_assoc, !last_snoc in H. done.
Qed.

Lemma key_changes_with_one_field t1 c1 g1 t2 c2 g2 :
  differ_in_one_field (make_release t1 c1 g1) (make_release t2 c2 g2) →
  key (make_release t1 c1 g1) ≠ key (make_release t2 c2 g2).
Proof.
  unfold differ_in_one_field. rewrite !make_release_key, !make_release_group.
  cbn [title chapter make_release].
  intros [(Ht & <- & Hg)|[(<- & Hc & Hg)|(<- & <- & Hg)]] Hkey.
  - apply or_unknown_eq in Hg as [<-|[[-> ->]|[-> ->]]].
    + by apply app_inv_tail in Hkey.
    + rewrite app_nil_r in Hkey.
      apply (blank_key_ne_unknown_key (t1 ++ lit "|" ++ c1) (t2 ++ lit "|" ++ c1)).
      by rewrite <- !app_assoc.
    + rewrite app_nil_r in Hkey.
      apply (blank_key_ne_unknown_key (t2 ++ lit "|" ++ c1) (t1 ++ lit "|" ++ c1)).
      by rewrite <- !app_assoc.
  - do 2 apply app_inv_head in Hkey.
    apply or_unknown_eq in Hg as [<-|[[-> ->]|[-> ->]]].
    + by apply app_inv_tail in Hkey.
    + rewrite app_nil_r in Hkey.
      by apply (blank_key_ne_unknown_key c1 c2) in Hkey.
    + rewrite app_nil_r in Hkey. symmetry in Hkey.
      by apply (blank_key_ne_unknown_key c2 c1) in Hkey.
  - do 4 apply app_inv_head in Hkey. by subst.
Qed.

End Key.

(** C2, as stated, fails: the key is built from the row's group text before
    the "Unknown" default is applied.  A row with a blank group column
    parses to a record whose key is not the join of its three fields, and
    a second row that spells the group "Unknown" parses to a record with
    the same three fields and a different key. *)
Lemma key_is_not_join_of_record_fields :
  ∃ r1 r2,
    r1 ∈ parse Sample.page_blank_group
    ∧ r2 ∈ parse Sample.page_unknown_group
    ∧ key r1 ≠ title r1 ++ lit "|" ++ chapter r1 ++ lit "|" ++ group r1
    ∧ (title r1, chapter r1, group r1) = (title r2, chapter r2, group r2)
    ∧ key r1 ≠ key r2.
Proof.
  exists Sample.solo,
    (make_release (lit "Solo Leveling") (lit "c.12") (lit "Unknown")).
  split; [|split; [|split; [|split]]].
  - vm_compute. apply list_elem_of_here.
  - vm_compute. apply list_elem_of_here.
  - vm_compute. congruence.
  - reflexivity.
  - vm_compute. congruence.
Qed.

(** C2, amended.  Every parsed record comes from a located row, and its key
    is its title, its chapter and that row's trimmed group text joined by
    "|"; the group field is that text, or "Unknown" when the text is empty,
    so the key is the join of the three fields whenever the group text is
    not empty.  The key is a function of (title, chapter, group text): two
    records that agree on these have the same key.  Two parsed records
    that differ in exactly one of title, chapter, group have different
    keys. *)
Theorem key_of_parsed_records (soup1 soup2 : node) (r1 r2 : ReleaseRecord) :
  r1 ∈ parse soup1 → r2 ∈ parse soup2 →
  ∃ d1 d2,
    d1 ∈ release_divs_of soup1 ∧ d2 ∈ release_divs_of soup2
    ∧ key r1 = title r1 ++ lit "|" ++ chapter r1 ++ lit "|" ++ group_text d1
    ∧ key r2 = title r2 ++ lit "|" ++ chapter r2 ++ lit "|" ++ group_text d2
    ∧ group r1 = or_unknown (group_text d1)
    ∧ group r2 = or_unknown (group_text d2)
    ∧ (group_text d1 ≠ [] →
       key r1 = title r1 ++ lit "|" ++ chapter r1 ++ lit "|" ++ group r1)
    ∧ (title r1 = title r2 → chapter r1 = chapter r2 →
       group_text d1 = group_text d2 → key r1 = key r2)
    ∧ (differ_in_one_field r1 r2 → key r1 ≠ key r2).
Proof.
  intros (d1 & Hd1 & _ & ->)%elem_of_parse (d2 & Hd2 & _ & ->)%elem_of_parse.
  exists d1, d2. unfold record_of.
  repeat split; try done.
  - intros Hg. rewrite make_release_group, or_unknown_nonempty by done.
    reflexivity.
  - rewrite !make_release_key. cbn [title chapter make_release].
    by intros -> -> ->.
  - apply key_changes_with_one_field.
Qed.

(** The amended C2 at two rows of one page that differ in the chapter. *)
Lemma key_of_parsed_records_witness :
  key (Sample.tog 1) ≠ key (Sample.tog 2).
Proof.
  destruct (key_of_parsed_records Sample.page_two_chapters
              Sample.page_two_chapters (Sample.tog 1) (Sample.tog 2))
    as (d1 & d2 & _ & _ & _ & _ & _ & _ & _ & _ & Hne).
  - vm_compute. apply list_elem_of_here.
  - vm_compute. apply list_elem_of_further, list_elem_of_here.
  - apply Hne. right; left. vm_compute. repeat split; congruence.
Defined.
(* ===================================================================== *)
(** ** Fetching with fallback to the cache *)
(* ===================================================================== *)

Section Fetch.

Implicit Types (resp : response) (w : world) (evs : list event).

Lemma cached_or_empty_eq w : cached_or_empty w = cached_releases w.
Proof. unfold cached_or_empty. by destruct (cached_releases w). Qed.

(** The three results of a call, by whether the request parsed to a
    record. *)
Lemma fetch_releases_from_page_eq resp w :
  fetch_releases_from_page resp w
  = if truthy (parsed resp)
    then (parsed resp,
          {| cached_releases := parsed resp;
             seen_releases := seen_releases w;
             CACHE_FILE := Some (parsed resp);
             SEEN_FILE := SEEN_FILE w |},
          [WriteCacheFile (parsed resp)])
    else (cached_releases w, w, []).
Proof.
  destruct resp as [e|soup]; cbn [fetch_releases_from_page parsed truthy].
  - by rewrite cached_or_empty_eq.
  - destruct (truthy (parse soup)); [done|]. by rewrite cached_or_empty_eq.
Qed.

Lemma fetch_seen resp w :
  seen_releases (fetch_releases_from_page resp w).1.2 = seen_releases w.
Proof. rewrite fetch_releases_from_page_eq. by destruct (truthy _). Qed.

Lemma fetch_seen_file resp w :
  SEEN_FILE (fetch_releases_from_page resp w).1.2 = SEEN_FILE w.
Proof. rewrite fetch_releases_from_page_eq. by destruct (truthy _). Qed.

(** A call sends nothing and never writes the seen file. *)
Lemma fetch_effects resp w :
  let fx := (fetch_releases_from_page resp w).2 in
  (∀ to, sent to fx = []) ∧ seen_file_writes fx = []
  ∧ cache_file_writes fx
    = if truthy (parsed resp) then [parsed resp] else [].
Proof. rewrite fetch_releases_from_page_eq. by destruct (truthy _). Qed.

Lemma startup_coherent cache_file seen_file :
  cache_coherent (startup cache_file seen_file).
Proof. reflexivity. Qed.

End Fetch.

(* ===================================================================== *)
(** ** Detection against the seen-set *)
(* ===================================================================== *)

Section Detect.

Implicit Types (releases acc : list ReleaseRecord) (seen : gset (list N)).

Lemma detect_acc releases seen acc :
  detect releases seen acc
  = ((detect releases seen []).1, acc ++ (detect releases seen []).2).
Proof.
  revert seen acc.
  induction releases as [|r rest IH]; intros seen acc; cbn [detect].
  - cbn. by rewrite app_nil_r.
  - case_bool_decide.
    + rewrite (IH _ (acc ++ [r])), (IH _ ([] ++ [r])). cbn.
      by rewrite <- app_assoc.
    + apply IH.
Qed.

(** The seen-set after the loop: the keys of the listing are added. *)
Lemma detect_seen releases seen acc :
  (detect releases seen acc).1 = seen ∪ list_to_set (key <$> releases).
Proof.
  revert seen acc.
  induction releases as [|r rest IH]; intros seen acc; cbn [detect].
  - cbn. set_solver.
  - case_bool_decide; rewrite IH; set_solver.
Qed.

(** A listing whose keys are all seen adds nothing. *)
Lemma detect_all_seen releases seen acc :
  (∀ r, r ∈ releases → key r ∈ seen) → detect releases seen acc = (seen, acc).
Proof.
  revert acc. induction releases as [|r rest IH]; intros acc Hall; [done|].
  cbn [detect]. rewrite bool_decide_eq_false_2.
  - apply IH. intros r' Hr'. apply Hall. by right.
  - intros Hnot. apply Hnot, Hall. by left.
Qed.

(** What is appended was in the listing and not yet seen. *)
Lemma detect_new releases seen acc r :
  r ∈ (detect releases seen acc).2 →
  r ∈ acc ∨ (r ∈ releases ∧ key r ∉ seen).
Proof.
  revert seen acc.
  induction releases as [|r' rest IH]; intros seen acc; cbn [detect].
  - by left.
  - case_bool_decide as Hk.
    + intros [[Hr|Hr]%elem_of_app|[Hr Hn]]%IH.
      * by left.
      * apply list_elem_of_singleton in Hr as ->.
        right. split; [by left|done].
      * right. split; [by right|set_solver].
    + intros [Hr|[Hr Hn]]%IH; [by left|]. right. split; [by right|done].
Qed.

(** The keys appended in one pass are pairwise distinct. *)
Lemma detect_NoDup releases seen acc :
  NoDup (key <$> acc) → (∀ r, r ∈ acc → key r ∈ seen) →
  NoDup (key <$> (detect releases seen acc).2).
Proof.
  revert seen acc.
  induction releases as [|r rest IH]; intros seen acc Hnd Hacc; [done|].
  cbn [detect]. case_bool_decide as Hk; [|by apply IH].
  apply IH.
  - rewrite fmap_app. apply NoDup_app. split; [done|]. split.
    + intros k (r' & -> & Hr')%list_elem_of_fmap Hin.
      apply list_elem_of_singleton in Hin. apply Hk. rewrite <- Hin.
      by apply Hacc.
    + apply NoDup_singleton.
  - intros r' [Hr'|Hr']%elem_of_app.
    + apply elem_of_union_r. by apply Hacc.
    + apply list_elem_of_singleton in Hr' as ->. set_solver.
Qed.

(** Nothing is appended exactly when the seen-set is left as it was. *)
Lemma detect_nothing_new releases seen :
  (detect releases seen []).2 = [] ↔ (detect releases seen []).1 = seen.
Proof.
  split.
  - intros Hnew. induction releases as [|r rest IH] in seen, Hnew |- *; [done|].
    cbn [detect] in *. case_bool_decide as Hk; [|by apply IH].
    rewrite detect_acc in Hnew. cbn in Hnew. done.
  - intros Hseen. rewrite detect_all_seen; [done|].
    intros r Hr. rewrite <- Hseen, detect_seen.
    apply elem_of_union_r, elem_of_list_to_set, list_elem_of_fmap. eauto.
Qed.

End Detect.

(* ===================================================================== *)
(** ** One monitor pass and histories *)
(* ===================================================================== *)

Section Monitor.

Implicit Types (resp : response) (w : world) (evs : list event).

Lemma fetch_listing resp w :
  (fetch_releases_from_page resp w).1.1 = listing_of resp w.
Proof.
  rewrite fetch_releases_from_page_eq. unfold listing_of.
  by destruct (truthy _).
Qed.

Lemma new_releases_of_eq resp w :
  new_releases_of resp w = (detect (listing_of resp w) (seen_releases w) []).2.
Proof.
  unfold new_releases_of. rewrite <- fetch_listing, <- (fetch_seen resp w).
  by destruct (fetch_releases_from_page resp w) as [[releases w1] fx].
Qed.

Lemma monitor_cycle_eq resp w :
  monitor_cycle resp w
  = let w1 := (fetch_releases_from_page resp w).1.2 in
    let fx_fetch := (fetch_releases_from_page resp w).2 in
    let seen := (detect (listing_of resp w) (seen_releases w) []).1 in
    let new_releases := new_releases_of resp w in
    if truthy new_releases
    then ({| cached_releases := cached_releases w1;
             seen_releases := seen;
             CACHE_FILE := CACHE_FILE w1;
             SEEN_FILE := Some seen |},
          fx_fetch ++ [WriteSeenFile seen] ++ post_new_releases new_releases
            ++ [Sleep 3600000])
    else ({| cached_releases := cached_releases w1;
             seen_releases := seen;
             CACHE_FILE := CACHE_FILE w1;
             SEEN_FILE := SEEN_FILE w1 |},
          fx_fetch ++ [Sleep 3600000]).
Proof.
  rewrite new_releases_of_eq. unfold monitor_cycle.
  rewrite <- fetch_listing, <- (fetch_seen resp w).
  destruct (fetch_releases_from_page resp w) as [[releases w1] fx].
  cbn [fst snd]. destruct (detect releases (seen_releases w1) []) as [seen new].
  cbn [fst snd]. by destruct (truthy new).
Qed.

Lemma monitor_cycle_seen resp w :
  seen_releases (monitor_cycle resp w).1
  = (detect (listing_of resp w) (seen_releases w) []).1.
Proof. rewrite monitor_cycle_eq. cbn zeta. by destruct (truthy _). Qed.

Lemma monitor_cycle_cached resp w :
  cached_releases (monitor_cycle resp w).1
  = cached_releases (fetch_releases_from_page resp w).1.2.
Proof. rewrite monitor_cycle_eq. cbn zeta. by destruct (truthy _). Qed.

(** The same response gives the same listing on the next pass. *)
Lemma listing_of_next resp w :
  listing_of resp (monitor_cycle resp w).1 = listing_of resp w.
Proof.
  unfold listing_of. rewrite monitor_cycle_cached, fetch_releases_from_page_eq.
  by destruct (truthy (parsed resp)).
Qed.

Lemma sent_app to fx1 fx2 : sent to (fx1 ++ fx2) = sent to fx1 ++ sent to fx2.
Proof. unfold sent. by rewrite flat_map_app. Qed.

Lemma seen_file_writes_app fx1 fx2 :
  seen_file_writes (fx1 ++ fx2) = seen_file_writes fx1 ++ seen_file_writes fx2.
Proof. unfold seen_file_writes. by rewrite flat_map_app. Qed.

Lemma cache_file_writes_app fx1 fx2 :
  cache_file_writes (fx1 ++ fx2) = cache_file_writes fx1 ++ cache_file_writes fx2.
Proof. unfold cache_file_writes. by rewrite flat_map_app. Qed.

(** The embeds a pass sends to the release channel: one per batch. *)
Lemma sent_post_new_releases new_releases :
  sent ReleaseChannel (post_new_releases new_releases)
  = map (fun batch => WithEmbed (monitor_embed batch)) (batches 5 new_releases).
Proof.
  unfold post_new_releases. induction (batches 5 new_releases) as [|b bs IH]; [done|].
  cbn [flat_map map]. rewrite sent_app, IH. reflexivity.
Qed.

Lemma seen_file_writes_post new_releases :
  seen_file_writes (post_new_releases new_releases) = [].
Proof.
  unfold post_new_releases. induction (batches 5 new_releases) as [|b bs IH]; [done|].
  cbn [flat_map]. rewrite seen_file_writes_app, IH. reflexivity.
Qed.

Lemma monitor_cycle_sent resp w :
  sent ReleaseChannel (monitor_cycle resp w).2
  = map (fun batch => WithEmbed (monitor_embed batch))
        (batches 5 (new_releases_of resp w)).
Proof.
  rewrite monitor_cycle_eq. cbn zeta.
  destruct (fetch_effects resp w) as (Hsent & _ & _). cbn zeta in Hsent.
  destruct (new_releases_of resp w) as [|r new] eqn:Hnew; cbn [truthy snd].
  - rewrite sent_app, Hsent. reflexivity.
  - rewrite !sent_app, Hsent, sent_post_new_releases. cbn [app sent flat_map].
    by rewrite app_nil_r.
Qed.

Lemma step_seen ev w : seen_releases w ⊆ seen_releases (step ev w).1.
Proof.
  destruct ev as [resp|resp|resp]; cbn [step].
  - rewrite monitor_cycle_seen, detect_seen. set_solver.
  - unfold latestrelease. pose proof (fetch_seen resp w) as Hs.
    destruct (fetch_releases_from_page resp w) as [[releases w1] fx].
    cbn in Hs. destruct (truthy releases); cbn; by rewrite Hs.
  - unfold testfetch. pose proof (fetch_seen resp w) as Hs.
    destruct (fetch_releases_from_page resp w) as [[releases w1] fx].
    cbn in Hs. destruct releases; cbn; by rewrite Hs.
Qed.

Lemma run_app evs1 evs2 w :
  (run (evs1 ++ evs2) w).1 = (run evs2 (run evs1 w).1).1.
Proof.
  revert w. induction evs1 as [|ev rest IH]; intros w; [done|].
  cbn [app run]. destruct (step ev w) as [w1 fx1]. specialize (IH w1).
  destruct (run (rest ++ evs2) w1), (run rest w1). cbn in *. done.
Qed.

Lemma run_seen evs w : seen_releases w ⊆ seen_releases (run evs w).1.
Proof.
  revert w. induction evs as [|ev rest IH]; intros w; [done|].
  cbn [run]. pose proof (step_seen ev w) as Hstep.
  destruct (step ev w) as [w1 fx1]. specialize (IH w1).
  destruct (run rest w1) as [w2 fx2]. cbn in *. set_solver.
Qed.

End Monitor.

(** C3. Detection is idempotent: for every listing and seen-set, a second
    run of the detection loop on the same listing, from the seen-set the
    first run left, appends nothing and leaves the seen-set as it is; and
    a second monitor pass on the same response finds no new release and
    sends no message to the release channel. *)
Theorem detection_idempotent :
  (∀ (releases : list ReleaseRecord) (seen : gset (list N)),
     let seen1 := (detect releases seen []).1 in
     detect releases seen1 [] = (seen1, []))
  ∧ (∀ (resp : response) (w : world),
       let w1 := (monitor_cycle resp w).1 in
       new_releases_of resp w1 = []
       ∧ sent ReleaseChannel (monitor_cycle resp w1).2 = []
       ∧ seen_file_writes (monitor_cycle resp w1).2 = []).
Proof.
  assert (Hdet : ∀ releases seen,
            detect releases (detect releases seen []).1 []
            = ((detect releases seen []).1, [])).
  { intros releases seen. apply detect_all_seen. intros r Hr.
    rewrite detect_seen. apply elem_of_union_r, elem_of_list_to_set.
    apply list_elem_of_fmap. eauto. }
  split; [exact Hdet|]. intros resp w w1.
  assert (Hnew : new_releases_of resp w1 = []).
  { subst w1. rewrite new_releases_of_eq, listing_of_next, monitor_cycle_seen.
    by rewrite Hdet. }
  split; [done|]. split.
  - by rewrite monitor_cycle_sent, Hnew.
  - rewrite monitor_cycle_eq. cbn zeta. rewrite Hnew. cbn [truthy snd].
    destruct (fetch_effects resp w1) as (_ & Hw & _). cbn zeta in Hw.
    by rewrite seen_file_writes_app, Hw.
Qed.

(** C5. The seen-set only grows: along every history of monitor passes and
    commands, the seen-set at any point is included in the seen-set at any
    later point, so no key is ever removed and the size never decreases. *)
Theorem seen_set_monotone (evs1 evs2 : list event) (w : world) :
  let before := seen_releases (run evs1 w).1 in
  let after := seen_releases (run (evs1 ++ evs2) w).1 in
  before ⊆ after ∧ size before ≤ size after.
Proof.
  intros before after.
  assert (Hsub : before ⊆ after).
  { subst before after. rewrite run_app. apply run_seen. }
  split; [done|]. by apply subseteq_size.
Qed.

(** C9. In every monitor pass the seen file is written exactly once, with
    the whole seen-set, when the pass added a key, and is not written and
    keeps its content when the pass added none. *)
Theorem seen_set_persisted_iff_new_key (resp : response) (w : world) :
  let w' := (monitor_cycle resp w).1 in
  let fx := (monitor_cycle resp w).2 in
  if bool_decide (seen_releases w' = seen_releases w)
  then seen_file_writes fx = [] ∧ SEEN_FILE w' = SEEN_FILE w
       ∧ new_releases_of resp w = []
  else seen_file_writes fx = [seen_releases w']
       ∧ SEEN_FILE w' = Some (seen_releases w')
       ∧ new_releases_of resp w ≠ [].
Proof.
  intros w' fx. subst w' fx. rewrite monitor_cycle_seen.
  pose proof (detect_nothing_new (listing_of resp w) (seen_releases w)) as Hiff.
  rewrite <- new_releases_of_eq in Hiff.
  rewrite monitor_cycle_eq. cbn zeta.
  destruct (fetch_effects resp w) as (_ & Hw & _). cbn zeta in Hw.
  case_bool_decide as Hseen.
  - apply Hiff in Hseen. rewrite Hseen. cbn [truthy fst snd SEEN_FILE].
    by rewrite seen_file_writes_app, Hw, fetch_seen_file.
  - destruct (new_releases_of resp w) as [|r new] eqn:Hnew.
    { exfalso. by apply Hseen, Hiff. }
    cbn [truthy fst snd SEEN_FILE].
    rewrite !seen_file_writes_app, Hw, seen_file_writes_post. done.
Qed.
(* ===================================================================== *)
(** ** The cache along a history *)
(* ===================================================================== *)

Section Cache.

Implicit Types (resp : response) (w : world) (ev : event) (evs : list event).

Lemma cache_file_writes_post new_releases :
  cache_file_writes (post_new_releases new_releases) = [].
Proof.
  unfold post_new_releases. induction (batches 5 new_releases) as [|b bs IH]; [done|].
  cbn [flat_map]. rewrite cache_file_writes_app, IH. reflexivity.
Qed.

Lemma cache_file_writes_listing releases (starts : list nat) :
  cache_file_writes
    (flat_map (fun i => [Send Ctx (WithEmbed (latest_embed releases i 10)); Sleep 500])
              starts) = [].
Proof.
  induction starts as [|i rest IH]; [done|].
  cbn [flat_map]. rewrite cache_file_writes_app, IH. reflexivity.
Qed.

(** Outside the call of [fetch_releases_from_page] no operation touches
    the cache: its two fields and its writes are those of the call. *)
Lemma step_cache ev w :
  let after_fetch := fetch_releases_from_page (response_of ev) w in
  cached_releases (step ev w).1 = cached_releases after_fetch.1.2
  ∧ CACHE_FILE (step ev w).1 = CACHE_FILE after_fetch.1.2
  ∧ cache_file_writes (step ev w).2 = cache_file_writes after_fetch.2.
Proof.
  destruct ev as [resp|resp|resp]; cbn [step response_of]; cbn zeta.
  - rewrite monitor_cycle_eq. cbn zeta.
    destruct (truthy (new_releases_of resp w)); cbn [fst snd cached_releases CACHE_FILE];
      rewrite !cache_file_writes_app, ?cache_file_writes_post; cbn;
      by rewrite app_nil_r.
  - unfold latestrelease.
    destruct (fetch_releases_from_page resp w) as [[releases w1] fx].
    destruct (truthy releases); cbn [fst snd];
      rewrite !cache_file_writes_app, ?cache_file_writes_listing; cbn;
      by rewrite app_nil_r.
  - unfold testfetch.
    destruct (fetch_releases_from_page resp w) as [[releases w1] fx].
    destruct releases; cbn [fst snd];
      rewrite !cache_file_writes_app; cbn; by rewrite app_nil_r.
Qed.

Lemma step_coherent ev w : cache_coherent w → cache_coherent (step ev w).1.
Proof.
  unfold cache_coherent. intros Hw.
  destruct (step_cache ev w) as (-> & -> & _).
  rewrite fetch_releases_from_page_eq. by destruct (truthy _).
Qed.

Lemma step_cache_file ev w :
  CACHE_FILE (step ev w).1
  = if truthy (parsed (response_of ev))
    then Some (parsed (response_of ev)) else CACHE_FILE w.
Proof.
  destruct (step_cache ev w) as (_ & -> & _).
  rewrite fetch_releases_from_page_eq. by destruct (truthy _).
Qed.

Lemma run_cache evs w :
  cache_coherent w →
  cache_coherent (run evs w).1
  ∧ CACHE_FILE (run evs w).1 = last_persisted evs (CACHE_FILE w).
Proof.
  revert w. induction evs as [|ev rest IH]; intros w Hw; [done|].
  cbn [run last_persisted].
  pose proof (step_coherent ev w Hw) as Hstep.
  pose proof (step_cache_file ev w) as Hfile.
  destruct (step ev w) as [w1 fx1]. cbn [fst] in Hstep, Hfile.
  specialize (IH w1 Hstep). destruct (run rest w1) as [w2 fx2].
  cbn [fst] in *. by rewrite <- Hfile.
Qed.

End Cache.

(** C4. Fallback law: after any history from start-up, a call whose request
    raises or whose page parses to no record returns the sequence last
    written to the cache file (by the last request of the history that
    parsed to a record, or the file's content at start-up when there was
    none), and the empty sequence when the file was never written; the
    call leaves the state as it is. *)
Theorem fallback_returns_last_persisted
  (cache_file : option (list ReleaseRecord)) (seen_file : option (gset (list N)))
  (evs : list event) (resp : response) :
  parsed resp = [] →
  let w := (run evs (startup cache_file seen_file)).1 in
  let '(releases, w', fx) := fetch_releases_from_page resp w in
  CACHE_FILE w = last_persisted evs cache_file
  ∧ releases = match CACHE_FILE w with
               | Some persisted => persisted
               | None => []
               end
  ∧ w' = w ∧ fx = [].
Proof.
  intros Hparsed w.
  destruct (run_cache evs (startup cache_file seen_file)
              (startup_coherent cache_file seen_file)) as [Hcoh Hfile].
  fold w in Hcoh, Hfile.
  rewrite fetch_releases_from_page_eq, Hparsed. cbn [truthy].
  repeat split; [done|]. exact Hcoh.
Qed.

(** C4 at a first start (no files), after a pass that parsed two records
    and a command whose request raised: a page with no usable row returns
    the two cached records. *)
Lemma fallback_returns_last_persisted_witness :
  (fetch_releases_from_page (Page Sample.page_empty)
     (run [MonitorCycle (Page Sample.page_two_chapters);
           LatestRelease (Raises RequestException)]
          (startup None None)).1).1.1
  = [Sample.tog 1; Sample.tog 2].
Proof.
  pose proof (fallback_returns_last_persisted None None
                [MonitorCycle (Page Sample.page_two_chapters);
                 LatestRelease (Raises RequestException)]
                (Page Sample.page_empty)) as H.
  cbn zeta in H.
  destruct (fetch_releases_from_page _ _) as [[releases w'] fx].
  destruct H as (Hfile & -> & _); [vm_compute; reflexivity|].
  rewrite Hfile. vm_compute. reflexivity.
Defined.

(** C8. The cache is written exactly when a fetch and parse yields at least
    one record: then the in-memory sequence and the cache file both become
    the full parsed sequence, by one write of the file; when the request
    raises or parses to no record, the in-memory sequence and the file are
    left as they were and the file is not written.  This holds for the call
    itself and for every operation that makes it. *)
Theorem cache_written_iff_records_parsed :
  (∀ (resp : response) (w : world),
     let '(releases, w', fx) := fetch_releases_from_page resp w in
     if truthy (parsed resp)
     then releases = parsed resp
          ∧ cached_releases w' = parsed resp
          ∧ CACHE_FILE w' = Some (parsed resp)
          ∧ fx = [WriteCacheFile (parsed resp)]
     else w' = w ∧ fx = [])
  ∧ (∀ (ev : event) (w : world),
       let w' := (step ev w).1 in
       if truthy (parsed (response_of ev))
       then cached_releases w' = parsed (response_of ev)
            ∧ CACHE_FILE w' = Some (parsed (response_of ev))
            ∧ cache_file_writes (step ev w).2 = [parsed (response_of ev)]
       else cached_releases w' = cached_releases w
            ∧ CACHE_FILE w' = CACHE_FILE w
            ∧ cache_file_writes (step ev w).2 = []).
Proof.
  split.
  - intros resp w. rewrite fetch_releases_from_page_eq.
    by destruct (truthy (parsed resp)).
  - intros ev w. cbn zeta.
    destruct (step_cache ev w) as (-> & -> & ->).
    rewrite fetch_releases_from_page_eq.
    by destruct (truthy (parsed (response_of ev))).
Qed.
(* ===================================================================== *)
(** ** Batches *)
(* ===================================================================== *)

Section Batches.

Context {A : Type}.
Implicit Types (l : list A) (n m i : nat).

Lemma ceil_div_0 n : 0 < n → ceil_div 0 n = 0.
Proof. intros Hn. unfold ceil_div. apply Nat.div_small. lia. Qed.

Lemma ceil_div_step a n : 0 < n → 0 < a → ceil_div a n = S (ceil_div (a - n) n).
Proof.
  intros Hn Ha. unfold ceil_div.
  destruct (decide (n ≤ a)) as [Hle|Hlt].
  - replace (a + (n - 1)) with ((a - n + (n - 1)) + 1 * n) by lia.
    rewrite Nat.div_add by lia. lia.
  - replace (a - n) with 0 by lia.
    replace (a + (n - 1)) with ((a - 1) + 1 * n) by lia.
    rewrite Nat.div_add by lia. rewrite !Nat.div_small by lia. lia.
Qed.

Lemma ceil_div_covers a n : 0 < n → a ≤ ceil_div a n * n.
Proof.
  intros Hn. unfold ceil_div.
  pose proof (Nat.div_mod_eq (a + (n - 1)) n) as Hdm.
  pose proof (Nat.mod_upper_bound (a + (n - 1)) n) as Hlt. nia.
Qed.

(** [range(start, stop, step)] is [start, start + step, ...], with
    [ceil((stop - start) / step)] terms. *)
Lemma range_from_eq fuel start stop step :
  0 < step → stop - start ≤ fuel →
  range_from fuel start stop step
  = map (fun j => start + j * step) (seq 0 (ceil_div (stop - start) step)).
Proof.
  intros Hstep. revert start.
  induction fuel as [|fuel IH]; intros start Hfuel; cbn [range_from].
  - replace (stop - start) with 0 by lia. by rewrite ceil_div_0.
  - destruct (start <? stop) eqn:Hlt.
    + apply Nat.ltb_lt in Hlt.
      rewrite (ceil_div_step (stop - start) step) by lia.
      cbn [seq map]. f_equal; [lia|].
      rewrite IH by lia.
      replace (stop - (start + step)) with (stop - start - step) by lia.
      rewrite <- seq_shift, map_map. apply map_ext. intros j. lia.
    + apply Nat.ltb_ge in Hlt.
      replace (stop - start) with 0 by lia. by rewrite ceil_div_0.
Qed.

Lemma range_eq stop step :
  0 < step →
  range 0 stop step = map (fun j => j * step) (seq 0 (ceil_div stop step)).
Proof.
  intros Hstep. unfold range. rewrite range_from_eq by lia.
  by rewrite Nat.sub_0_r.
Qed.

Lemma slice_clamp l i j : slice l i j = slice l i (j `min` length l).
Proof.
  unfold slice. destruct (decide (j ≤ length l)) as [Hle|Hgt].
  - by rewrite Nat.min_l.
  - rewrite Nat.min_r by lia.
    rewrite !take_ge; [done| |]; rewrite length_drop; lia.
Qed.

Lemma length_slice l i j : length (slice l i j) = (j - i) `min` (length l - i).
Proof. unfold slice. by rewrite length_take, length_drop. Qed.

Lemma concat_slices l n m :
  concat (map (fun j => slice l (j * n) (j * n + n)) (seq 0 m)) = take (m * n) l.
Proof.
  induction m as [|m IH]; [done|].
  rewrite seq_S, map_app, concat_app, IH. cbn [map concat Nat.add].
  rewrite app_nil_r. unfold slice.
  replace (m * n + n - m * n) with n by lia.
  rewrite take_take_drop. f_equal. lia.
Qed.

End Batches.

Section Notifier.

Implicit Types (new_releases : list ReleaseRecord) (resp : response) (w : world).

Lemma batches_eq n new_releases :
  0 < n →
  batches n new_releases
  = map (fun j => slice new_releases (j * n) (j * n + n))
        (seq 0 (ceil_div (length new_releases) n)).
Proof.
  intros Hn. unfold batches. rewrite range_eq by done. by rewrite map_map.
Qed.

(** The batches partition the list: nothing dropped, repeated or moved. *)
Lemma concat_batches n new_releases :
  0 < n → concat (batches n new_releases) = new_releases.
Proof.
  intros Hn. rewrite batches_eq, concat_slices by done.
  apply take_ge. by apply ceil_div_covers.
Qed.

Lemma length_batches n new_releases :
  0 < n → length (batches n new_releases) = ceil_div (length new_releases) n.
Proof. intros Hn. by rewrite batches_eq, length_map, length_seq. Qed.

Lemma lookup_batches n new_releases i :
  0 < n → i < ceil_div (length new_releases) n →
  batches n new_releases !! i
  = Some (slice new_releases (i * n) (i * n + n)).
Proof.
  intros Hn Hi. rewrite batches_eq by done.
  change (map ?f ?l) with (f <$> l).
  rewrite list_lookup_fmap, lookup_seq_lt by done. reflexivity.
Qed.

Lemma embeds_sent_post new_releases :
  embeds (sent ReleaseChannel (post_new_releases new_releases))
  = map monitor_embed (batches 5 new_releases).
Proof.
  rewrite sent_post_new_releases.
  induction (batches 5 new_releases) as [|b bs IH]; [done|].
  unfold embeds in *. cbn [map flat_map app]. by rewrite IH.
Qed.

(** The entries of all embeds of a pass, in order: one per new release. *)
Lemma fields_of_batches new_releases :
  concat (map fields (map monitor_embed (batches 5 new_releases)))
  = map monitor_field new_releases.
Proof.
  rewrite map_map. cbn [fields monitor_embed].
  transitivity (map monitor_field (concat (batches 5 new_releases))).
  - by rewrite concat_map.
  - by rewrite concat_batches by lia.
Qed.

Lemma NoDup_key_filter (releases : list ReleaseRecord) (k : str) :
  NoDup (key <$> releases) →
  length (List.filter (fun r => bool_decide (key r = k)) releases) ≤ 1.
Proof.
  induction releases as [|r rest IH]; [cbn; lia|].
  rewrite fmap_cons, NoDup_cons. intros [Hnotin Hnd]. cbn [List.filter].
  case_bool_decide as Hk; [|by apply IH].
  assert (List.filter (fun r => bool_decide (key r = k)) rest = []) as ->;
    [|cbn; lia].
  destruct (List.filter _ rest) as [|r' more] eqn:Hf; [done|]. exfalso.
  assert (In r' (List.filter (fun r => bool_decide (key r = k)) rest)) as Hin
    by (rewrite Hf; by left).
  apply filter_In in Hin as [Hin Hk']. apply bool_decide_eq_true in Hk'.
  apply Hnotin. rewrite Hk, <- Hk'. apply list_elem_of_fmap.
  exists r'. by rewrite list_elem_of_In.
Qed.

(** The listing path bounds the displayed title by 80 code points. *)
Lemma title_display_bounded (t : str) : length (title_display t) ≤ 80.
Proof.
  unfold title_display. destruct (80 <? length t) eqn:Hlen.
  - apply Nat.ltb_lt in Hlen. rewrite length_app, length_take.
    change (length (lit "...")) with 3. lia.
  - by apply Nat.ltb_ge in Hlen.
Qed.

End Notifier.

(** C6. Batching: K > 0 new releases are dispatched as exactly ceil(K/5)
    embeds to the release channel; embed i is rendered from the records at
    positions 5*i up to min(5*i+5, K) and so holds min(5, K - 5*i) entries;
    the batches concatenated are the list of new releases itself, so every
    record appears once and in page order; and these are the embeds a
    monitor pass with these new releases sends. *)
Theorem new_releases_sent_in_batches_of_five (new_releases : list ReleaseRecord) :
  let K := length new_releases in
  0 < K →
  let msgs := embeds (sent ReleaseChannel (post_new_releases new_releases)) in
  length msgs = ceil_div K 5
  ∧ 5 * (length msgs - 1) < K ≤ 5 * length msgs
  ∧ (∀ i, i < length msgs →
       msgs !! i
       = Some (monitor_embed (slice new_releases (5 * i) ((5 * i + 5) `min` K)))
       ∧ length (slice new_releases (5 * i) ((5 * i + 5) `min` K))
         = 5 `min` (K - 5 * i))
  ∧ msgs = map monitor_embed (batches 5 new_releases)
  ∧ concat (batches 5 new_releases) = new_releases
  ∧ concat (map fields msgs) = map monitor_field new_releases
  ∧ (∀ resp w, new_releases_of resp w = new_releases →
       embeds (sent ReleaseChannel (monitor_cycle resp w).2) = msgs).
Proof.
  intros K HK msgs.
  assert (Hmsgs : msgs = map monitor_embed (batches 5 new_releases))
    by apply embeds_sent_post.
  assert (Hlen : length msgs = ceil_div K 5).
  { rewrite Hmsgs, length_map. apply length_batches. lia. }
  split; [done|]. split.
  { rewrite Hlen. unfold ceil_div. cbn [Nat.sub].
    pose proof (Nat.div_mod_eq (K + 4) 5) as Hdm.
    pose proof (Nat.mod_upper_bound (K + 4) 5). lia. }
  split.
  { intros i Hi. rewrite Hlen in Hi. split.
    - rewrite Hmsgs. change (map ?f ?l) with (f <$> l).
      rewrite list_lookup_fmap, lookup_batches by (done || lia). cbn [fmap option_fmap option_map].
      rewrite slice_clamp. by rewrite (Nat.mul_comm i 5).
    - rewrite length_slice. fold K.
      assert (5 * i < K); [|lia].
      unfold ceil_div in Hi. cbn [Nat.sub] in Hi.
      pose proof (Nat.div_mod_eq (K + 4) 5) as Hdm.
      pose proof (Nat.mod_upper_bound (K + 4) 5). lia. }
  split; [done|]. split; [apply concat_batches; lia|]. split.
  { rewrite Hmsgs. apply fields_of_batches. }
  intros resp w Hnew. rewrite monitor_cycle_sent, Hnew.
  rewrite Hmsgs, <- embeds_sent_post, sent_post_new_releases. reflexivity.
Qed.

(** C6 at twelve new releases: three embeds, of 5, 5 and 2 entries. *)
Lemma new_releases_sent_in_batches_of_five_witness :
  map (fun e => length (fields e))
      (embeds (sent ReleaseChannel
                 (post_new_releases (map Sample.tog (seq 1 12)))))
  = [5; 5; 2].
Proof.
  destruct (new_releases_sent_in_batches_of_five (map Sample.tog (seq 1 12)))
    as (_ & _ & _ & -> & _); [cbn; lia|].
  vm_compute. reflexivity.
Defined.

(** C10. Within one pass a key is appended at most once: for every listing
    and seen-set the keys of the new releases are pairwise distinct, each
    new release is a record of the listing whose key was not seen before
    the pass, and the entries rendered by a monitor pass are, in order,
    one entry per new release, hence at most one per key. *)
Theorem one_entry_per_key_in_a_pass :
  (∀ (releases : list ReleaseRecord) (seen : gset (list N)),
     let new_releases := (detect releases seen []).2 in
     NoDup (key <$> new_releases)
     ∧ (∀ k, length (List.filter (fun r => bool_decide (key r = k)) new_releases) ≤ 1)
     ∧ Forall (fun r => r ∈ releases ∧ key r ∉ seen) new_releases)
  ∧ (∀ (resp : response) (w : world),
       NoDup (key <$> new_releases_of resp w)
       ∧ concat (map fields (embeds (sent ReleaseChannel (monitor_cycle resp w).2)))
         = map monitor_field (new_releases_of resp w)).
Proof.
  assert (Hnd : ∀ releases seen, NoDup (key <$> (detect releases seen []).2)).
  { intros releases seen. apply detect_NoDup; [constructor|].
    intros r Hr. by apply elem_of_nil in Hr. }
  split.
  - intros releases seen new_releases. split; [apply Hnd|]. split.
    + intros k. apply NoDup_key_filter, Hnd.
    + apply Forall_forall. intros r Hr.
      apply detect_new in Hr as [Hr|Hr]; [by apply elem_of_nil in Hr|done].
  - intros resp w. split.
    + rewrite new_releases_of_eq. apply Hnd.
    + rewrite monitor_cycle_sent.
      rewrite <- sent_post_new_releases, embeds_sent_post.
      apply fields_of_batches.
Qed.

(** C7: the monitor path does not bound the entry name.  It renders the
    name as the book mark followed by the whole title, whatever its length,
    while the listing path cuts a title of more than 80 code points to its
    first 77 followed by three dots.  At a title of 81 code points the
    monitor's name has 83 code points and the listing's has 82.  On both
    paths the body is the release label and the group behind their
    captions. *)
Theorem monitor_entry_name_is_not_bounded :
  (∀ r, name (monitor_field r) = [128214; 32]%N ++ title r
        ∧ length (name (monitor_field r)) = 2 + length (title r)
        ∧ value (monitor_field r)
          = lit "**Release:** " ++ chapter r ++ [10]%N ++ lit "**Group:** " ++ group r)
  ∧ (∀ r, length (name (latest_field r)) ≤ 82
          ∧ (length (title r) ≤ 80 → name (latest_field r) = [128214; 32]%N ++ title r)
          ∧ (80 < length (title r) →
             name (latest_field r) = [128214; 32]%N ++ take 77 (title r) ++ lit "..."))
  ∧ length (title Sample.long_title) = 81
  ∧ length (name (monitor_field Sample.long_title)) = 83
  ∧ name (latest_field Sample.long_title)
    = [128214; 32]%N ++ replicate 77 65%N ++ lit "..."
  ∧ length (name (latest_field Sample.long_title)) = 82.
Proof.
  split; [by intros r|]. split.
  - intros r. cbn [name latest_field]. split; [|split].
    + cbn [length app]. pose proof (title_display_bounded (title r)). lia.
    + intros Hle. unfold title_display.
      by rewrite (proj2 (Nat.ltb_ge _ _) Hle).
    + intros Hlt. unfold title_display.
      by rewrite (proj2 (Nat.ltb_lt _ _) Hlt).
  - vm_compute. done.
Qed.
(* ===================================================================== *)
(** ** The end-to-end scenarios *)
(* ===================================================================== *)

Example parse_two_chapters :
  parse Sample.page_two_chapters = [Sample.tog 1; Sample.tog 2].
Proof. vm_compute. reflexivity. Qed.

Example parse_blank_group : parse Sample.page_blank_group = [Sample.solo].
Proof. vm_compute. reflexivity. Qed.

(** First run, no files, twelve releases: three embeds of 5, 5 and 2
    entries, twelve keys seen, twelve records in the cache file. *)
Example scenario_first_run :
  let '(w, fx) := monitor_cycle (Page Sample.page_twelve) (startup None None) in
  map (fun e => length (fields e)) (embeds (sent ReleaseChannel fx)) = [5; 5; 2]
  ∧ size (seen_releases w) = 12
  ∧ CACHE_FILE w = Some (map Sample.tog (seq 1 12))
  ∧ SEEN_FILE w = Some (seen_releases w).
Proof. vm_compute. done. Qed.

(** Second run on the unchanged page: nothing sent, seen file not written. *)
Example scenario_second_run :
  let w1 := (monitor_cycle (Page Sample.page_twelve) (startup None None)).1 in
  let '(w2, fx) := monitor_cycle (Page Sample.page_twelve) w1 in
  sent ReleaseChannel fx = [] ∧ seen_file_writes fx = []
  ∧ seen_releases w2 = seen_releases w1.
Proof. vm_compute. done. Qed.

(** The request raises: the pass works on the twelve cached releases and
    finds nothing new. *)
Example scenario_fetch_raises :
  let w1 := (monitor_cycle (Page Sample.page_twelve) (startup None None)).1 in
  (fetch_releases_from_page (Raises RequestException) w1).1.1
  = map Sample.tog (seq 1 12)
  ∧ new_releases_of (Raises RequestException) w1 = []
  ∧ (monitor_cycle (Raises RequestException) w1).2 = [Sleep 3600000].
Proof. vm_compute. done. Qed.

(** Ten rows, one with fewer than three columns: nine records. *)
Example scenario_one_short_row :
  length (release_divs_of Sample.page_ten_one_short) = 10
  ∧ length (parse Sample.page_ten_one_short) = 9.
Proof. vm_compute. done. Qed.

(* ===================================================================== *)
(** ** Persistence across a restart *)
(* ===================================================================== *)

Section Restart.

Implicit Types (resp : response) (w : world) (ev : event) (evs : list event).

Lemma latestrelease_world resp w :
  (latestrelease resp w).1 = (fetch_releases_from_page resp w).1.2.
Proof.
  unfold latestrelease.
  destruct (fetch_releases_from_page resp w) as [[releases w1] fx].
  by destruct (truthy releases).
Qed.

Lemma testfetch_world resp w :
  (testfetch resp w).1 = (fetch_releases_from_page resp w).1.2.
Proof.
  unfold testfetch.
  destruct (fetch_releases_from_page resp w) as [[releases w1] fx].
  by destruct releases.
Qed.

Lemma step_seen_coherent ev w : seen_coherent w → seen_coherent (step ev w).1.
Proof.
  unfold seen_coherent. intros Hw. destruct ev as [resp|resp|resp]; cbn [step].
  - pose proof (detect_nothing_new (listing_of resp w) (seen_releases w)) as Hiff.
    rewrite <- new_releases_of_eq in Hiff.
    rewrite monitor_cycle_eq. cbn zeta.
    destruct (new_releases_of resp w) as [|r new]; cbn [truthy fst]; [|done].
    cbn [seen_releases SEEN_FILE]. rewrite fetch_seen_file, <- Hw.
    by apply Hiff.
  - by rewrite latestrelease_world, fetch_seen, fetch_seen_file.
  - by rewrite testfetch_world, fetch_seen, fetch_seen_file.
Qed.

Lemma run_cons ev evs w : (run (ev :: evs) w).1 = (run evs (step ev w).1).1.
Proof.
  cbn [run]. destruct (step ev w) as [w1 fx1]. cbn [fst].
  by destruct (run evs w1) as [w2 fx2].
Qed.

Lemma run_seen_coherent evs w : seen_coherent w → seen_coherent (run evs w).1.
Proof.
  revert w. induction evs as [|ev rest IH]; intros w Hw; [done|].
  rewrite run_cons. by apply IH, step_seen_coherent.
Qed.

End Restart.

(** X1. A restart loses nothing: after any history of monitor passes and
    commands from start-up, loading the two files again gives back the
    state the process is in (cache and seen-set alike). *)
Theorem restart_restores_state
  (cache_file : option (list ReleaseRecord)) (seen_file : option (gset (list N)))
  (evs : list event) :
  let w := (run evs (startup cache_file seen_file)).1 in
  startup (CACHE_FILE w) (SEEN_FILE w) = w.
Proof.
  intros w.
  destruct (run_cache evs (startup cache_file seen_file)
              (startup_coherent cache_file seen_file)) as [Hcache _].
  assert (Hseen : seen_coherent w).
  { apply run_seen_coherent. reflexivity. }
  fold w in Hcache. unfold cache_coherent in Hcache. unfold seen_coherent in Hseen.
  unfold startup. destruct w as [cached seen cfile sfile]. cbn in *.
  by rewrite <- Hcache, <- Hseen.
Qed.

(* ===================================================================== *)
(** ** What a pass reports as new *)
(* ===================================================================== *)

Section NewReleases.

Implicit Types (releases : list ReleaseRecord) (seen : gset (list N)).

Lemma detect_cons r releases seen :
  (detect (r :: releases) seen []).2
  = if bool_decide (key r ∉ seen)
    then r :: (detect releases ({[key r]} ∪ seen) []).2
    else (detect releases seen []).2.
Proof.
  cbn [detect]. case_bool_decide; [|done]. by rewrite detect_acc.
Qed.

Lemma detect_sublist releases seen : sublist (detect releases seen []).2 releases.
Proof.
  revert seen. induction releases as [|r rest IH]; intros seen.
  - constructor.
  - rewrite detect_cons. case_bool_decide.
    + apply sublist_skip, IH.
    + apply sublist_cons, IH.
Qed.

Lemma detect_keys releases seen :
  keys_of (detect releases seen []).2 = keys_of releases ∖ seen.
Proof.
  unfold keys_of. revert seen. induction releases as [|r rest IH]; intros seen.
  - cbn. set_solver.
  - rewrite detect_cons. case_bool_decide as Hk.
    + rewrite !fmap_cons. cbn [list_to_set]. rewrite IH.
      apply set_eq. intros k. rewrite !elem_of_union, !elem_of_difference,
        !elem_of_union, !elem_of_singleton.
      destruct (decide (k = key r)) as [->|Hne]; naive_solver.
    + rewrite IH, fmap_cons. cbn [list_to_set].
      assert (key r ∈ seen) by (destruct (decide (key r ∈ seen)); done).
      set_solver.
Qed.

Lemma detect_size releases seen :
  size (detect releases seen []).1 = size seen + length (detect releases seen []).2.
Proof.
  revert seen. induction releases as [|r rest IH]; intros seen.
  - cbn. lia.
  - rewrite detect_cons. cbn [detect]. case_bool_decide as Hk.
    + rewrite detect_acc. cbn [fst]. rewrite IH.
      rewrite size_union by set_solver. rewrite size_singleton. cbn [length]. lia.
    + apply IH.
Qed.

End NewReleases.

(** X2. The new releases of a detection run are the listing's records with
    the unseen keys, in page order: they form a sub-list of the listing,
    their keys are exactly the keys of the listing that were not in the
    seen-set, and the seen-set grows by exactly one key per new release. *)
Theorem new_releases_are_the_unseen_in_page_order
  (releases : list ReleaseRecord) (seen : gset (list N)) :
  let new_releases := (detect releases seen []).2 in
  let seen' := (detect releases seen []).1 in
  sublist new_releases releases
  ∧ keys_of new_releases = keys_of releases ∖ seen
  ∧ seen' = seen ∪ keys_of releases
  ∧ size seen' = size seen + length new_releases.
Proof.
  intros new_releases seen'. split; [apply detect_sublist|].
  split; [apply detect_keys|]. split; [apply detect_seen|apply detect_size].
Qed.

(** X3. A key is reported at most once in the life of the process: along
    every history, the new releases of a monitor pass and those of any
    later monitor pass have no key in common. *)
Theorem no_key_is_reported_twice
  (evs1 evs2 : list event) (resp1 resp2 : response) (w : world) :
  let w1 := (run evs1 w).1 in
  let w2 := (run (evs1 ++ MonitorCycle resp1 :: evs2) w).1 in
  keys_of (new_releases_of resp1 w1) ∩ keys_of (new_releases_of resp2 w2) = ∅.
Proof.
  intros w1 w2.
  assert (Hw2 : w2 = (run evs2 (monitor_cycle resp1 w1).1).1).
  { subst w1 w2. by rewrite run_app, run_cons. }
  assert (H1 : keys_of (new_releases_of resp1 w1) ⊆ seen_releases w2).
  { rewrite Hw2. etrans; [|apply run_seen].
    rewrite monitor_cycle_seen, detect_seen, new_releases_of_eq, detect_keys.
    unfold keys_of. set_solver. }
  assert (H2 : keys_of (new_releases_of resp2 w2) ## seen_releases w2).
  { rewrite new_releases_of_eq, detect_keys. set_solver. }
  set_solver.
Qed.

(** X4. After a monitor pass every key of the listing it worked on is in
    the seen-set, and the seen-set has grown by exactly the number of new
    releases of the pass. *)
Theorem monitor_pass_marks_listing_seen (resp : response) (w : world) :
  let w' := (monitor_cycle resp w).1 in
  seen_releases w' = seen_releases w ∪ keys_of (listing_of resp w)
  ∧ size (seen_releases w')
    = size (seen_releases w) + length (new_releases_of resp w).
Proof.
  cbn zeta. rewrite monitor_cycle_seen, new_releases_of_eq.
  split; [apply detect_seen|apply detect_size].
Qed.

(** X5. A call of [fetch_releases_from_page] returns what the in-memory
    cache holds after the call, and returns the empty list only when the
    request gave no record and the cache was empty. *)
Theorem fetch_returns_the_cache (resp : response) (w : world) :
  let '(releases, w', _) := fetch_releases_from_page resp w in
  releases = cached_releases w'
  ∧ (releases = [] ↔ parsed resp = [] ∧ cached_releases w = []).
Proof.
  rewrite fetch_releases_from_page_eq.
  destruct (parsed resp) as [|r rs] eqn:Hp; cbn [truthy cached_releases].
  - split; [done|]. naive_solver.
  - split; [done|]. naive_solver.
Qed.

(* ===================================================================== *)
(** ** The effects of a monitor pass *)
(* ===================================================================== *)

Section Pacing.

Implicit Types (resp : response) (w : world).

Lemma paced_batches (bs : list (list ReleaseRecord)) (tail : list effect) :
  paced 1000
    (flat_map (fun batch =>
                 [Send ReleaseChannel (WithEmbed (monitor_embed batch)); Sleep 1000])
              bs ++ tail)
  = paced 1000 tail.
Proof. induction bs as [|b bs IH]; [done|]. cbn [flat_map app paced]. exact IH. Qed.

Lemma last_monitor_cycle resp w :
  last (monitor_cycle resp w).2 = Some (Sleep 3600000).
Proof.
  rewrite monitor_cycle_eq. cbn zeta.
  destruct (truthy (new_releases_of resp w)); cbn [snd];
    rewrite ?app_assoc; apply last_snoc.
Qed.

End Pacing.

(** X6. In the effects of a monitor pass every message sent is directly
    followed by the one-second pause, and the pass ends with the one-hour
    sleep whether or not anything was new or the request raised. *)
Theorem monitor_pass_is_paced (resp : response) (w : world) :
  paced 1000 (monitor_cycle resp w).2 = true
  ∧ last (monitor_cycle resp w).2 = Some (Sleep 3600000).
Proof.
  split; [|apply last_monitor_cycle].
  rewrite monitor_cycle_eq. cbn zeta.
  rewrite fetch_releases_from_page_eq.
  destruct (truthy (parsed resp)), (truthy (new_releases_of resp w));
    cbn [snd app paced]; unfold post_new_releases;
    by rewrite ?paced_batches.
Qed.

(* ===================================================================== *)
(** ** The commands *)
(* ===================================================================== *)

Section Commands.

Implicit Types (resp : response) (w : world) (releases : list ReleaseRecord).

Lemma sent_fetch to resp w : sent to (fetch_releases_from_page resp w).2 = [].
Proof. by destruct (fetch_effects resp w) as (H & _ & _). Qed.

Lemma sent_listing releases (starts : list nat) :
  sent Ctx (flat_map (fun i => [Send Ctx (WithEmbed (latest_embed releases i 10));
                                Sleep 500]) starts)
  = map (fun i => WithEmbed (latest_embed releases i 10)) starts.
Proof.
  induction starts as [|i rest IH]; [done|].
  cbn [flat_map map]. rewrite sent_app, IH. reflexivity.
Qed.

Lemma seen_file_writes_listing releases (starts : list nat) :
  seen_file_writes
    (flat_map (fun i => [Send Ctx (WithEmbed (latest_embed releases i 10));
                         Sleep 500]) starts) = [].
Proof.
  induction starts as [|i rest IH]; [done|].
  cbn [flat_map]. rewrite seen_file_writes_app, IH. reflexivity.
Qed.

Lemma embeds_with_embed {X} (f : X → embed) (xs : list X) :
  embeds (map (fun x => WithEmbed (f x)) xs) = map f xs.
Proof.
  induction xs as [|x xs IH]; [done|].
  unfold embeds in *. cbn [map flat_map app]. by rewrite IH.
Qed.

(** The messages of the listing command, after the loading notice. *)
Lemma sent_latestrelease resp w :
  ∃ loading no_data,
    sent Ctx (latestrelease resp w).2
    = Content loading
      :: (if truthy (listing_of resp w)
          then map (fun i => WithEmbed (latest_embed (listing_of resp w) i 10))
                   (range 0 (length (listing_of resp w)) 10)
          else [Content no_data]).
Proof.
  do 2 eexists. unfold latestrelease.
  pose proof (fetch_listing resp w) as Hl. pose proof (sent_fetch Ctx resp w) as Hs.
  destruct (fetch_releases_from_page resp w) as [[releases w1] fx].
  cbn [fst snd] in Hl, Hs. subst releases.
  destruct (truthy (listing_of resp w)); cbn [snd];
    rewrite !sent_app, Hs, ?sent_listing; reflexivity.
Qed.

Lemma fields_of_pages releases :
  map fields (map (fun i => latest_embed releases i 10)
                  (range 0 (length releases) 10))
  = map (map latest_field) (batches 10 releases).
Proof. unfold batches. by rewrite !map_map. Qed.

Lemma length_batch n releases batch :
  0 < n → batch ∈ batches n releases → 0 < length batch ≤ n.
Proof.
  intros Hn. rewrite batches_eq by done.
  rewrite list_elem_of_In, in_map_iff. intros (j & <- & Hj).
  apply in_seq in Hj as [_ Hj]. cbn [Nat.add] in Hj.
  rewrite length_slice.
  assert (j * n < length releases); [|lia].
  unfold ceil_div in Hj.
  pose proof (Nat.div_mod_eq (length releases + (n - 1)) n) as Hdm.
  pose proof (Nat.mod_upper_bound (length releases + (n - 1)) n). nia.
Qed.

End Commands.

(** X7. The listing command pages the whole listing ten to an embed: with N
    records it sends ceil(N/10) embeds to the invoking context, each with
    between one and ten entries; the entries of all embeds, in order, are
    one per record of the listing; and no entry name is longer than 82 code
    points. *)
Theorem latestrelease_pages_by_ten (resp : response) (w : world) :
  let listing := listing_of resp w in
  let pages := embeds (sent Ctx (latestrelease resp w).2) in
  length pages = ceil_div (length listing) 10
  ∧ Forall (fun e => 0 < length (fields e) ≤ 10) pages
  ∧ concat (map fields pages) = map latest_field listing
  ∧ Forall (fun e => Forall (fun f => length (name f) ≤ 82) (fields e)) pages.
Proof.
  intros listing pages.
  assert (Hpages : pages = map (fun i => latest_embed listing i 10)
                               (range 0 (length listing) 10)).
  { subst pages. destruct (sent_latestrelease resp w) as (loading & no_data & ->).
    fold listing. destruct listing as [|r rs] eqn:Hl; [done|].
    cbn [truthy]. unfold embeds at 1. cbn [flat_map app].
    apply (embeds_with_embed (fun i => latest_embed (r :: rs) i 10)). }
  assert (Hfields : map fields pages = map (map latest_field) (batches 10 listing)).
  { rewrite Hpages. apply fields_of_pages. }
  split; [|split; [|split]].
  - rewrite <- (length_map fields), Hfields, length_map. apply length_batches. lia.
  - apply Forall_forall. intros e He.
    assert (Hin : fields e ∈ map fields pages)
      by (apply list_elem_of_In, in_map, list_elem_of_In, He).
    rewrite Hfields in Hin.
    apply list_elem_of_In, in_map_iff in Hin as (batch & <- & Hb).
    rewrite length_map. apply (length_batch 10 listing); [lia|].
    by apply list_elem_of_In.
  - rewrite Hfields, <- concat_map. by rewrite concat_batches by lia.
  - apply Forall_forall. intros e He.
    assert (Hin : fields e ∈ map fields pages)
      by (apply list_elem_of_In, in_map, list_elem_of_In, He).
    rewrite Hfields in Hin.
    apply list_elem_of_In, in_map_iff in Hin as (batch & <- & Hb).
    apply Forall_forall. intros f Hf.
    apply list_elem_of_In, in_map_iff in Hf as (r & <- & _).
    cbn [name latest_field length app].
    pose proof (title_display_bounded (title r)). lia.
Qed.

(** X8. The two commands that fetch the listing leave the seen-set and the
    seen file as they are and never write the seen file: only a monitor
    pass marks a release as seen. *)
Theorem commands_leave_the_seen_set (resp : response) (w : world) :
  (seen_releases (latestrelease resp w).1 = seen_releases w
   ∧ SEEN_FILE (latestrelease resp w).1 = SEEN_FILE w
   ∧ seen_file_writes (latestrelease resp w).2 = [])
  ∧ (seen_releases (testfetch resp w).1 = seen_releases w
     ∧ SEEN_FILE (testfetch resp w).1 = SEEN_FILE w
     ∧ seen_file_writes (testfetch resp w).2 = []).
Proof.
  destruct (fetch_effects resp w) as (_ & Hwrites & _).
  split.
  - rewrite latestrelease_world, fetch_seen, fetch_seen_file.
    split; [done|]. split; [done|]. unfold latestrelease.
    destruct (fetch_releases_from_page resp w) as [[releases w1] fx].
    cbn [snd] in *.
    destruct (truthy releases); cbn [snd];
      rewrite !seen_file_writes_app, Hwrites, ?seen_file_writes_listing; done.
  - rewrite testfetch_world, fetch_seen, fetch_seen_file.
    split; [done|]. split; [done|]. unfold testfetch.
    destruct (fetch_releases_from_page resp w) as [[releases w1] fx].
    cbn [snd] in *.
    destruct releases; cbn [snd];
      rewrite !seen_file_writes_app, Hwrites; done.
Qed.

(** X9. Both commands always answer: the listing command sends its loading
    notice and then either one embed per page of ten records or, when
    there is nothing to list, a single notice; the test command sends
    exactly two messages. *)
Theorem commands_always_reply (resp : response) (w : world) :
  let listing := listing_of resp w in
  length (sent Ctx (latestrelease resp w).2)
  = 1 + (if truthy listing then ceil_div (length listing) 10 else 1)
  ∧ (truthy listing = true → 0 < ceil_div (length listing) 10)
  ∧ length (sent Ctx (testfetch resp w).2) = 2.
Proof.
  intros listing. split; [|split].
  - destruct (sent_latestrelease resp w) as (loading & no_data & ->).
    fold listing. destruct (truthy listing); cbn [length]; [|done].
    rewrite length_map. unfold range. rewrite range_from_eq by lia.
    by rewrite length_map, length_seq, Nat.sub_0_r.
  - destruct listing as [|r rs]; [done|]. intros _.
    rewrite (ceil_div_step (length (r :: rs)) 10) by (cbn; lia). lia.
  - unfold testfetch. pose proof (sent_fetch Ctx resp w) as Hs.
    destruct (fetch_releases_from_page resp w) as [[releases w1] fx].
    cbn [snd] in Hs.
    destruct releases; cbn [snd]; rewrite !sent_app, Hs; reflexivity.
Qed.

(* ===================================================================== *)
(** ** Trimmed texts *)
(* ===================================================================== *)

Section Trimmed.

Implicit Types (s t : str).

Lemma lstrip_head s c rest : lstrip s = c :: rest → isspace c = false.
Proof.
  induction s as [|a s IH]; [done|]. cbn [lstrip].
  destruct (isspace a) eqn:Ha; [exact IH|]. congruence.
Qed.

Lemma lstrip_suffix s : ∃ pre, s = pre ++ lstrip s.
Proof.
  induction s as [|a s [pre IH]]; [by exists []|]. cbn [lstrip].
  destruct (isspace a); [|by exists []].
  exists (a :: pre). cbn. by rewrite <- IH.
Qed.

Lemma rstrip_last s d : last (rstrip s) = Some d → isspace d = false.
Proof.
  unfold rstrip. rewrite last_reverse.
  destruct (lstrip (reverse s)) as [|c rest] eqn:Hl; [done|].
  cbn. intros [= <-]. by apply lstrip_head in Hl.
Qed.

Lemma rstrip_prefix s : ∃ suf, s = rstrip s ++ suf.
Proof.
  unfold rstrip. destruct (lstrip_suffix (reverse s)) as [pre Hpre].
  exists (reverse pre). rewrite <- reverse_app, <- Hpre.
  by rewrite reverse_involutive.
Qed.

Lemma trimmed_strip s : trimmed (strip s) = true.
Proof.
  unfold strip, trimmed. destruct (rstrip (lstrip s)) as [|c u] eqn:Hr; [done|].
  apply andb_true_intro. split.
  - destruct (rstrip_prefix (lstrip s)) as [suf Hsuf]. rewrite Hr in Hsuf.
    cbn in Hsuf. apply lstrip_head in Hsuf. by rewrite Hsuf.
  - destruct (last (c :: u)) as [d|] eqn:Hlast; [|done].
    rewrite <- Hr in Hlast. apply rstrip_last in Hlast. by rewrite Hlast.
Qed.

Lemma trimmed_app s t :
  s ≠ [] → trimmed s = true → trimmed t = true → trimmed (s ++ t) = true.
Proof.
  destruct s as [|c s]; [done|]. intros _ Hs Ht.
  destruct t as [|d t]; [by rewrite app_nil_r|].
  unfold trimmed in *. cbn [app]. change (c :: s ++ d :: t) with ((c :: s) ++ d :: t).
  rewrite last_app.
  apply andb_true_iff in Hs as [Hc Hls]. apply andb_true_iff in Ht as [_ Hd].
  rewrite Hc. cbn [andb]. by destruct (last (d :: t)).
Qed.

Lemma trimmed_concat (parts : list str) :
  Forall (fun s => s ≠ [] ∧ trimmed s = true) parts →
  trimmed (concat parts) = true.
Proof.
  induction 1 as [|s parts [Hne Hs] _ IH]; [done|].
  cbn [concat]. apply trimmed_app; [exact Hne|exact Hs|exact IH].
Qed.

Lemma trimmed_get_text (n : node) : trimmed (get_text n) = true.
Proof.
  unfold get_text, stripped_strings. apply trimmed_concat, Forall_forall.
  intros s Hs. apply list_elem_of_In, in_flat_map in Hs as (d & _ & Hs).
  destruct d as [raw|raw|name cls contents]; try by destruct Hs.
  cbn zeta in Hs. destruct (truthy (strip raw)) eqn:Ht; [|by destruct Hs].
  destruct Hs as [<-|[]]. split; [|apply trimmed_strip].
  by apply truthy_nonempty.
Qed.

Lemma trimmed_row_texts (release_div : node) :
  trimmed (title_text release_div) = true
  ∧ trimmed (release_text release_div) = true
  ∧ trimmed (group_text release_div) = true.
Proof.
  unfold title_text, release_text, group_text.
  destruct (columns_of release_div) as [|c0 [|c1 [|c2 more]]];
    repeat split; try done; try apply trimmed_get_text;
    destruct (find _ c0); apply trimmed_get_text.
Qed.

End Trimmed.

(** X10. Every parsed record carries trimmed texts: its title, chapter and
    group have no white space (as [str.isspace] decides it) at either end. *)
Theorem parsed_records_are_trimmed (soup : node) :
  Forall (fun r => trimmed (title r) = true ∧ trimmed (chapter r) = true
                   ∧ trimmed (group r) = true)
         (parse soup).
Proof.
  apply Forall_forall. intros r (d & _ & _ & ->)%elem_of_parse.
  destruct (trimmed_row_texts d) as (Ht & Hc & Hg).
  unfold record_of, make_release. cbn [title chapter group].
  repeat split; try done. by destruct (group_text d).
Qed.

(* ===================================================================== *)
(** ** [lookup] *)
(* ===================================================================== *)

Section LookupFacts.

Variable lower : str → str.

Lemma lookup_loop_length items results :
  length (lookup_loop items results) ≤ length results + length items.
Proof.
  revert results. induction items as [|item rest IH]; intros results.
  - cbn. lia.
  - cbn [lookup_loop length].
    destruct (match Markup.find (lit "a") None item with
              | Some a => Some a
              | None => Markup.find (lit "span") None item
              end) as [title_elem|]; [|etrans; [apply IH|lia]].
    cbn zeta. destruct (truthy _ && (2 <? _)); (etrans; [apply IH|]);
      rewrite ?length_app; cbn [length]; lia.
Qed.

Lemma lookup_loop_kept items results :
  Forall kept_result results → Forall kept_result (lookup_loop items results).
Proof.
  revert results. induction items as [|item rest IH]; intros results Hres; [done|].
  cbn [lookup_loop].
  destruct (match Markup.find (lit "a") None item with
            | Some a => Some a
            | None => Markup.find (lit "span") None item
            end) as [title_elem|]; [|by apply IH].
  cbn zeta.
  destruct (truthy (Markup.get_text title_elem)
            && (2 <? length (Markup.get_text title_elem))) eqn:Hkeep; [|by apply IH].
  apply IH, Forall_app. split; [done|]. apply Forall_singleton.
  apply andb_true_iff in Hkeep as [_ Hlen%Nat.ltb_lt].
  split; [exact Hlen|]. cbn [link].
  set (l := match Markup.find (lit "a") None item with
            | Some _ => Markup.get_href title_elem
            | None => []
            end).
  destruct l as [|c l]; [by left|]. right. cbn [truthy andb].
  destruct (startswith (c :: l) (lit "http")) eqn:Hs; cbn [negb]; [done|].
  reflexivity.
Qed.

Lemma replace_char_no_old old new (s : str) :
  old ≠ new → old ∉ replace_char old new s.
Proof.
  intros Hne. unfold replace_char. rewrite list_elem_of_In, in_map_iff.
  intros (c & Hc & _). destruct (c =? old)%N eqn:Heq.
  - by subst.
  - apply N.eqb_neq in Heq. by subst.
Qed.

Lemma result_field_bounds (r : search_result) :
  length (name (result_field r)) ≤ 102 ∧ value (result_field r) ≠ [].
Proof.
  unfold result_field. cbn [name value]. split.
  - cbn [length app]. rewrite length_take. lia.
  - by destruct (link r).
Qed.

End LookupFacts.

(** X11. The search keeps at most ten results; each has a title of more
    than two code points and a link that is either empty or absolute
    (starts with "http"), a relative link having been put behind the
    site's address. *)
Theorem lookup_results_are_bounded_and_absolute
  (lower : str → str) (soup : Markup.element) :
  length (lookup_results lower soup) ≤ 10
  ∧ Forall kept_result (lookup_results lower soup).
Proof.
  unfold lookup_results. split.
  - etrans; [apply lookup_loop_length|]. cbn [length]. rewrite length_take. lia.
  - apply lookup_loop_kept. constructor.
Qed.

(** X12. On every path (results, no result, request raised) the search
    command sends its loading notice, deletes it, and answers with exactly
    one embed; the embed links to the search URL, which holds no space
    (the spaces of the query are replaced by "+"); it has at most eight
    entries, each with a name of at most 102 code points and a non-empty
    body, and none when the request raised. *)
Theorem lookup_answers_with_one_embed
  (lower : str → str) (query : str) (resp : Markup.reply) :
  ∃ loading e,
    lookup_command lower query resp
    = [Send Ctx (Content loading); DeleteLoadingMsg; Send Ctx (WithEmbed e)]
    ∧ embed_url e = Some (search_url query)
    ∧ (32%N ∉ search_url query)
    ∧ length (fields e) ≤ 8
    ∧ Forall (fun f => length (name f) ≤ 102 ∧ value f ≠ []) (fields e)
    ∧ match resp with
      | Markup.Failed _ => fields e = []
      | Markup.Body soup =>
          fields e = map result_field (take 8 (lookup_results lower soup))
      end.
Proof.
  assert (Hurl : 32%N ∉ search_url query).
  { unfold search_url. rewrite !not_elem_of_app. split; [|split].
    - apply (bool_decide_unpack _). vm_compute. exact I.
    - apply (bool_decide_unpack _). vm_compute. exact I.
    - by apply replace_char_no_old. }
  unfold lookup_command. destruct resp as [e|soup].
  - do 2 eexists. split; [reflexivity|]. cbn [embed_url fields length].
    repeat split; try done; try lia.
  - destruct (lookup_results lower soup) as [|r rs] eqn:Hres; cbn [truthy].
    + do 2 eexists. split; [reflexivity|]. cbn [embed_url fields length].
      repeat split; try done; try lia.
    + do 2 eexists. split; [reflexivity|]. cbn [embed_url fields].
      split; [done|]. split; [done|]. split; [|split; [|done]].
      * rewrite length_map, length_take. lia.
      * apply Forall_forall. intros f Hf.
        apply list_elem_of_In, in_map_iff in Hf as (r' & <- & _).
        apply result_field_bounds.
Qed.

(* ===================================================================== *)
(** ** [randomseries] *)
(* ===================================================================== *)

Section RandomSeries.

Variable lower : str → str.

Lemma series_loop_kept links manhwa_list :
  Forall kept_series manhwa_list → Forall kept_series (series_loop links manhwa_list).
Proof.
  revert manhwa_list. induction links as [|l rest IH]; intros acc Hacc; [done|].
  cbn [series_loop]. cbn zeta.
  destruct (truthy (Markup.get_text l) && (2 <? length (Markup.get_text l)))
    eqn:Hkeep; [|by apply IH].
  apply IH, Forall_app. split; [done|]. apply Forall_singleton.
  apply andb_true_iff in Hkeep as [_ Hlen%Nat.ltb_lt].
  split; [exact Hlen|]. cbn [series_url].
  destruct (startswith (Markup.get_href l) (lit "http")) eqn:Hs; cbn [negb]; [done|].
  reflexivity.
Qed.

Lemma retry_loop_kept fuel attempts pages manhwa_list :
  Forall kept_series manhwa_list →
  match retry_loop fuel attempts pages manhwa_list with
  | Ok (l, _) => Forall kept_series l
  | Raise _ => True
  end.
Proof.
  revert attempts manhwa_list.
  induction fuel as [|fuel IH]; intros attempts acc Hacc; [done|].
  cbn [retry_loop]. destruct ((length acc =? 0) && (attempts <? 3)); [|done].
  destruct (pages attempts) as [e|soup]; [done|].
  apply IH. by apply series_loop_kept.
Qed.

(** The loop leaves by its own test within three rounds: the attempts
    never pass three, a non-empty list ends it at once, and it gives up
    with an empty list only after the third attempt. *)
Lemma retry_loop_exit fuel attempts pages manhwa_list :
  3 ≤ fuel + attempts → attempts ≤ 3 →
  match retry_loop fuel attempts pages manhwa_list with
  | Ok (l, n) =>
      attempts ≤ n ≤ 3
      ∧ (manhwa_list ≠ [] → n = attempts ∧ l = manhwa_list)
      ∧ (l = [] → n = 3)
      ∧ (∀ i, attempts ≤ i < n → ∃ soup, pages i = Markup.Body soup)
      ∧ (∀ i soup, attempts ≤ i → S i < n → pages i = Markup.Body soup →
           series_of_page soup [] = [])
  | Raise e =>
      manhwa_list = []
      ∧ ∃ i, attempts ≤ i < 3 ∧ pages i = Markup.Failed e
  end.
Proof.
  revert attempts manhwa_list.
  induction fuel as [|fuel IH]; intros attempts acc Hfuel Hle.
  - cbn [retry_loop]. assert (attempts = 3) as -> by lia.
    repeat split; try done; try lia; intros; lia.
  - cbn [retry_loop]. destruct acc as [|m acc].
    + cbn [length Nat.eqb andb]. destruct (attempts <? 3) eqn:Hlt.
      * apply Nat.ltb_lt in Hlt.
        destruct (pages attempts) as [e|soup] eqn:Hpage.
        { split; [done|]. exists attempts. split; [lia|done]. }
        specialize (IH (attempts + 1) (series_of_page soup []) ltac:(lia) ltac:(lia)).
        destruct (retry_loop fuel (attempts + 1) pages (series_of_page soup []))
          as [[l n]|e].
        -- destruct IH as (Hn & Hstop & Hempty & Hbodies & Hnone).
           split; [lia|]. split; [done|]. split; [done|]. split.
           ++ intros i Hi. destruct (decide (i = attempts)) as [->|Hne]; [eauto|].
              apply Hbodies. lia.
           ++ intros i soup' Hi Hlast Hp.
              destruct (decide (i = attempts)) as [->|Hne].
              ** rewrite Hpage in Hp. injection Hp as <-.
                 destruct (series_of_page soup []) as [|m ms] eqn:Hs; [done|].
                 destruct (Hstop ltac:(done)) as [Hn' _]. lia.
              ** apply (Hnone i); [lia|done|done].
        -- destruct IH as (_ & i & Hi & Hp). split; [done|].
           exists i. split; [lia|done].
      * apply Nat.ltb_ge in Hlt. assert (attempts = 3) as -> by lia.
        repeat split; try done; try lia; intros; lia.
    + cbn [length Nat.eqb andb]. repeat split; try done; try lia; intros; lia.
Qed.

Lemma collect_series_kept first pages :
  match collect_series first pages with
  | Ok (l, _) => Forall kept_series l
  | Raise _ => True
  end.
Proof.
  unfold collect_series. destruct first as [e|soup]; [done|].
  apply retry_loop_kept. unfold series_of_page. apply series_loop_kept.
  constructor.
Qed.

Lemma random_sample_submseteq {A} k draws (xs : list A) : random_sample k draws xs ⊆+ xs.
Proof.
  revert xs. induction k as [|k IH]; intros xs; cbn [random_sample].
  - apply submseteq_nil_l.
  - cbn zeta. destruct (xs !! (draws k mod length xs)) as [x|] eqn:Hx;
      [|apply submseteq_nil_l].
    etrans; [apply submseteq_skip, IH|].
    apply Permutation_submseteq. symmetry. by apply delete_Permutation.
Qed.

Lemma length_random_sample {A} k draws (xs : list A) :
  length (random_sample k draws xs) = k `min` length xs.
Proof.
  revert xs. induction k as [|k IH]; intros xs; cbn [random_sample]; [done|].
  cbn zeta. destruct xs as [|x0 xs]; [done|].
  assert (Hlt : draws k mod length (x0 :: xs) < length (x0 :: xs))
    by (apply Nat.mod_upper_bound; cbn; lia).
  destruct (lookup_lt_is_Some_2 _ _ Hlt) as [x Hx]. rewrite Hx.
  cbn [length]. rewrite IH, length_delete by eauto. cbn [length]. lia.
Qed.

Lemma length_describe detail : length (describe lower detail) ≤ 303.
Proof.
  unfold describe. destruct detail as [e|soup]; [cbn; lia|].
  destruct (Markup.find _ _ soup) as [desc_elem|]; [|cbn; lia].
  cbn zeta. destruct (300 <? length (Markup.get_text desc_elem)) eqn:Hlen.
  - rewrite length_app, length_take. change (length (lit "...")) with 3. lia.
  - apply Nat.ltb_ge in Hlen. lia.
Qed.

Lemma random_choice_elem {A} draw (x0 : A) rest : random_choice draw x0 rest ∈ x0 :: rest.
Proof.
  unfold random_choice. apply list_elem_of_In, nth_In.
  cbn [length]. apply Nat.mod_upper_bound. lia.
Qed.

End RandomSeries.

(** X13. The browse for a random series asks for at most three further
    pages and stops at the first that lists a series: the count of
    attempts never passes three, no retry is made when the first page
    already lists a series, every retried page but the last listed none,
    and the list is empty only after the third attempt; when a request
    raises, it is the first or one of the three retries.  Every series
    kept has a title of more than two code points and an absolute
    address. *)
Theorem collect_series_retries_at_most_thrice
  (first : Markup.reply) (pages : nat → Markup.reply) :
  match collect_series first pages with
  | Ok (manhwa_list, attempts) =>
      attempts ≤ 3
      ∧ (manhwa_list = [] → attempts = 3)
      ∧ (∀ i soup, S i < attempts → pages i = Markup.Body soup →
           series_of_page soup [] = [])
      ∧ Forall kept_series manhwa_list
      ∧ ∃ soup, first = Markup.Body soup
                ∧ (series_of_page soup [] ≠ [] →
                   attempts = 0 ∧ manhwa_list = series_of_page soup [])
  | Raise e =>
      first = Markup.Failed e ∨ ∃ i, i < 3 ∧ pages i = Markup.Failed e
  end.
Proof.
  unfold collect_series. destruct first as [e|soup]; [by left|].
  pose proof (retry_loop_exit 3 0 pages (series_of_page soup [])
                ltac:(lia) ltac:(lia)) as Hexit.
  pose proof (retry_loop_kept 3 0 pages (series_of_page soup [])) as Hkept.
  destruct (retry_loop 3 0 pages (series_of_page soup [])) as [[l n]|e].
  - destruct Hexit as (Hn & Hstop & Hempty & _ & Hnone).
    split; [lia|]. split; [done|]. split.
    { intros i soup' Hi Hp. apply (Hnone i); [lia|done|done]. }
    split.
    { apply Hkept. unfold series_of_page. apply series_loop_kept. constructor. }
    exists soup. split; [done|]. intros Hne. by apply Hstop.
  - destruct Hexit as (_ & i & Hi & Hp). right. exists i. split; [lia|done].
Qed.

(** X14. On every path the random-series command sends its loading
    notice, deletes it, and answers with exactly one embed.  The embed
    links to an absolute address; its description has at most 303 code
    points; and it carries a single "more" entry exactly when more than
    one series was collected, listing min(5, n) of the n collected series
    taken at distinct positions, one line each. *)
Theorem randomseries_answers_with_one_embed
  (lower : str → str) (first : Markup.reply) (pages : nat → Markup.reply)
  (detail : Markup.reply) (draw : nat) (draws : nat → nat) :
  ∃ loading e url,
    randomseries lower first pages detail draw draws
    = [Send Ctx (Content loading); DeleteLoadingMsg; Send Ctx (WithEmbed e)]
    ∧ embed_url e = Some url
    ∧ startswith url (lit "http") = true
    ∧ length (description e) ≤ 303
    ∧ match collect_series first pages with
      | Ok (manhwa_list, _) =>
          if 1 <? length manhwa_list
          then ∃ others,
                 map value (fields e) = [join [10%N] (map bullet others)]
                 ∧ others ⊆+ manhwa_list
                 ∧ length others = 5 `min` length manhwa_list
          else fields e = []
      | Raise _ => e = browse_embed
      end.
Proof.
  unfold randomseries.
  pose proof (collect_series_kept first pages) as Hkept.
  destruct (collect_series first pages) as [[manhwa_list n]|err].
  - destruct manhwa_list as [|m0 more].
    + do 3 eexists. split; [reflexivity|]. cbn [embed_url browse_embed description].
      repeat split; try done. cbn. lia.
    + do 3 eexists. split; [reflexivity|]. cbn [embed_url description fields].
      split; [done|]. split.
      { pose proof (random_choice_elem draw m0 more) as Hin.
        rewrite Forall_forall in Hkept. by destruct (Hkept _ Hin). }
      split; [apply length_describe|].
      destruct (1 <? length (m0 :: more)); [|done].
      eexists. split; [reflexivity|]. split; [apply random_sample_submseteq|].
      rewrite length_random_sample. lia.
  - do 3 eexists. split; [reflexivity|]. cbn [embed_url browse_embed description].
    repeat split; try done. cbn. lia.
Qed.

(* ===================================================================== *)
(** ** The cache is never blanked *)
(* ===================================================================== *)

Section CacheKept.

Implicit Types (w : world) (ev : event) (evs : list event).

Lemma step_keeps_cache_nonempty ev w :
  cached_releases w ≠ [] → cached_releases (step ev w).1 ≠ [].
Proof.
  intros Hw. destruct (step_cache ev w) as (-> & _ & _).
  rewrite fetch_releases_from_page_eq.
  destruct (parsed (response_of ev)) as [|r rs] eqn:Hp; cbn [truthy]; [done|].
  cbn [fst snd cached_releases]. done.
Qed.

Lemma run_keeps_cache_nonempty evs w :
  cached_releases w ≠ [] → cached_releases (run evs w).1 ≠ [].
Proof.
  revert w. induction evs as [|ev rest IH]; intros w Hw; [done|].
  rewrite run_cons. by apply IH, step_keeps_cache_nonempty.
Qed.

End CacheKept.

(** X15. Once the cache holds a listing it is never blanked: after any
    further history the in-memory cache is still non-empty, and every call
    of [fetch_releases_from_page], whatever its request gives, returns a
    non-empty listing. *)
Theorem cache_is_never_blanked (evs : list event) (resp : response) (w : world) :
  cached_releases w ≠ [] →
  cached_releases (run evs w).1 ≠ []
  ∧ (fetch_releases_from_page resp (run evs w).1).1.1 ≠ [].
Proof.
  intros Hw. pose proof (run_keeps_cache_nonempty evs w Hw) as Hrun.
  split; [done|]. rewrite fetch_releases_from_page_eq.
  by destruct (parsed resp) as [|r rs] eqn:Hp; cbn [truthy fst].
Qed.

(** X15 after a first pass that cached two records: a command whose
    request raises and a pass over a page with no usable row leave the
    two records to a later failing call. *)
Lemma cache_is_never_blanked_witness :
  (fetch_releases_from_page (Raises RequestException)
     (run [LatestRelease (Raises RequestException);
           MonitorCycle (Page Sample.page_empty)]
          (monitor_cycle (Page Sample.page_two_chapters) (startup None None)).1).1).1.1
  ≠ [].
Proof.
  apply (cache_is_never_blanked
           [LatestRelease (Raises RequestException);
            MonitorCycle (Page Sample.page_empty)]
           (Raises RequestException)
           (monitor_cycle (Page Sample.page_two_chapters) (startup None None)).1).
  vm_compute. congruence.
Defined.

(* ===================================================================== *)
(** ** The link pages on samples *)
(* ===================================================================== *)

(** Three items: a relative link is made absolute, an absolute one is
    kept, a two-letter title is dropped. *)
Example lookup_results_search_page :
  map (fun r => (result_title r, link r))
      (lookup_results ascii_lower LinkSample.search_page)
  = [(lit "Tower of God", site ++ lit "/series/abc/tower");
     (lit "Noblesse", lit "https://example.org/x")].
Proof. vm_compute. reflexivity. Qed.

Example search_url_of_two_words :
  search_url (lit "tower of god")
  = lit "https://www.mangaupdates.com/series.html?search=tower+of+god".
Proof. vm_compute. reflexivity. Qed.

(** An empty first page and an empty first retry: the second retry lists
    two series and ends the loop after two attempts. *)
Example collect_series_second_retry :
  collect_series (Markup.Body LinkSample.empty_page)
    (fun n => if n =? 1 then Markup.Body (LinkSample.browse_page 2)
              else Markup.Body LinkSample.empty_page)
  = Ok ([{| series_title := lit "Bastard";
            series_url := site ++ lit "/series.html?id=7" |};
         {| series_title := lit "Bastard";
            series_url := site ++ lit "/series.html?id=7" |}], 2).
Proof. vm_compute. reflexivity. Qed.

(** Nothing but empty pages: three retries, then the browse embed. *)
Example randomseries_gives_up :
  collect_series (Markup.Body LinkSample.empty_page)
    (fun _ => Markup.Body LinkSample.empty_page) = Ok ([], 3)
  ∧ embeds (sent Ctx (randomseries ascii_lower (Markup.Body LinkSample.empty_page)
                        (fun _ => Markup.Body LinkSample.empty_page)
                        (Markup.Failed RequestException) 0 (fun _ => 0)))
    = [browse_embed].
Proof. vm_compute. done. Qed.
